(** * Chladni interactive poster: particle behaviour and sonification

    A shallow embedding of [sketch.js].  JavaScript numbers are modelled as
    real numbers with exact arithmetic; the p5.js helpers the sketch calls
    ([map], [constrain], [abs], the [p5.Vector] methods) are transcribed from
    the p5.js library.  The sketch only ever builds vectors with a zero third
    component, so vectors carry [x] and [y] only.

    What the environment supplies is an explicit input: the reading of
    [millis()], the sample drawn by [Math.random()], the frame counter. *)

From Stdlib Require Import Reals Lra Lia List String Bool Arith ZArith.
Import ListNotations.
Open Scope R_scope.

(** ** p5.js helpers *)

Module P5.

(** [map(n, start1, stop1, start2, stop2)], without the optional bounds. *)
Definition map (n start1 stop1 start2 stop2 : R) : R :=
  (n - start1) / (stop1 - start1) * (stop2 - start2) + start2.

(** [constrain(n, low, high)] is [Math.max(Math.min(n, high), low)]. *)
Definition constrain (n low high : R) : R := Rmax (Rmin n high) low.

Definition abs (n : R) : R := Rabs n.

Definition TWO_PI : R := 2 * PI.

End P5.

(** ** p5.Vector *)

Module Vector.

Record t : Type := mk { x : R; y : R }.

Definition add (v w : t) : t := mk (x v + x w) (y v + y w).

Definition mult (v : t) (n : R) : t := mk (x v * n) (y v * n).

(** [div] warns and leaves the vector alone when the divisor is zero. *)
Definition div (v : t) (n : R) : t :=
  if Req_dec_T n 0 then v else mk (x v / n) (y v / n).

Definition magSq (v : t) : R := x v * x v + y v * y v.

Definition mag (v : t) : R := sqrt (magSq v).

Definition normalize (v : t) : t :=
  let len := mag v in
  if Req_dec_T len 0 then v else mult v (1 / len).

Definition limit (v : t) (max : R) : t :=
  let mSq := magSq v in
  if Rgt_dec mSq (max * max) then mult (div v (sqrt mSq)) max else v.

Definition fromAngle (angle : R) : t := mk (1 * cos angle) (1 * sin angle).

(** [random2D()]; [u] is the sample returned by [Math.random()]. *)
Definition random2D (u : R) : t := fromAngle (u * P5.TWO_PI).

End Vector.

Definition createVector (x y : R) : Vector.t := Vector.mk x y.

(** ** Configuration *)

Definition CANVAS_WIDTH : R := 1080.
Definition CANVAS_HEIGHT : R := 1350.
Definition NUM_PARTICLES : nat := 9000.
Definition L_CHLADNI_SCALE : R := CANVAS_WIDTH / 3.
Definition SCATTER_DURATION : R := 500.
Definition NUM_SETTLE_OSCILLATORS : nat := 4.

(** ** Sound calculations *)

Definition calculateFrequencyFromMN (m n : R) : R :=
  let complexity := (m * 1.2) + (n * 1.2) in
  let freq := P5.map complexity 2 40 50 600 in
  freq.

Definition chladni (x y m_val n_val : R) : R :=
  let term1 := cos (n_val * PI * x / L_CHLADNI_SCALE) * cos (m_val * PI * y / L_CHLADNI_SCALE) in
  let term2 := cos (m_val * PI * x / L_CHLADNI_SCALE) * cos (n_val * PI * y / L_CHLADNI_SCALE) in
  term1 - term2.

(** ** Particle *)

Record Particle : Type := mkParticle {
  pos : Vector.t;
  vel : Vector.t;
  acc : Vector.t;
  isSettled : bool
}.

(** The constructor's [maxSpeed] and [maxForce] are never reassigned. *)
Definition maxSpeed : R := 2.5.
Definition maxForce : R := 0.4.

(** [new Particle()]; [u1], [u2] are the samples behind [random(CANVAS_WIDTH)]
    and [random(CANVAS_HEIGHT)]. *)
Definition newParticle (u1 u2 : R) : Particle :=
  mkParticle (createVector (u1 * CANVAS_WIDTH) (u2 * CANVAS_HEIGHT))
             (createVector 0 0) (createVector 0 0) false.

Definition set_pos (q : Vector.t) (p : Particle) : Particle :=
  mkParticle q (vel p) (acc p) (isSettled p).
Definition set_vel (v : Vector.t) (p : Particle) : Particle :=
  mkParticle (pos p) v (acc p) (isSettled p).
Definition set_acc (a : Vector.t) (p : Particle) : Particle :=
  mkParticle (pos p) (vel p) a (isSettled p).
Definition set_isSettled (b : bool) (p : Particle) : Particle :=
  mkParticle (pos p) (vel p) (acc p) b.

Definition applyForce (force : Vector.t) (p : Particle) : Particle :=
  set_acc (Vector.add (acc p) force) p.

(** The two wrap tests of one axis, in the order the code runs them. *)
Definition wrap (bound c : R) : R :=
  let c1 := if Rlt_dec c 0 then bound else c in
  if Rgt_dec c1 bound then 0 else c1.

Definition update (p : Particle) : Particle :=
  let p1 := set_vel (Vector.add (vel p) (acc p)) p in
  let p2 := set_vel (Vector.limit (vel p1) maxSpeed) p1 in
  let p3 := set_pos (Vector.add (pos p2) (vel p2)) p2 in
  let p4 := set_acc (Vector.mult (acc p3) 0) p3 in
  set_pos (Vector.mk (wrap CANVAS_WIDTH (Vector.x (pos p4)))
                     (wrap CANVAS_HEIGHT (Vector.y (pos p4)))) p4.

Definition tolerance : R := 0.03.
Definition checkDistance : R := 2.

Section ParticleMethods.

(** The globals the methods read. *)
Variables stableM stableN lastScatterTime : R.

Definition getChladniValue (x_coord y_coord : R) : R :=
  let scaledX := P5.map x_coord 0 CANVAS_WIDTH (- L_CHLADNI_SCALE) L_CHLADNI_SCALE in
  let scaledY := P5.map y_coord 0 CANVAS_HEIGHT (- L_CHLADNI_SCALE) L_CHLADNI_SCALE in
  P5.abs (chladni scaledX scaledY stableM stableN).

(** The four comparisons of the gradient descent, accumulated in the
    order the code runs them. *)
Definition steerForce (chladniVal : R) (p : Particle) : Vector.t :=
  let px := Vector.x (pos p) in
  let py := Vector.y (pos p) in
  let rightVal := getChladniValue (px + checkDistance) py in
  let leftVal := getChladniValue (px - checkDistance) py in
  let downVal := getChladniValue px (py + checkDistance) in
  let upVal := getChladniValue px (py - checkDistance) in
  let sx0 := 0 in
  let sy0 := 0 in
  let sx1 := if Rlt_dec rightVal chladniVal then sx0 + 1
             else if Rgt_dec rightVal chladniVal then sx0 - 1 else sx0 in
  let sx2 := if Rlt_dec leftVal chladniVal then sx1 - 1
             else if Rgt_dec leftVal chladniVal then sx1 + 1 else sx1 in
  let sy1 := if Rlt_dec downVal chladniVal then sy0 + 1
             else if Rgt_dec downVal chladniVal then sy0 - 1 else sy0 in
  let sy2 := if Rlt_dec upVal chladniVal then sy1 - 1
             else if Rgt_dec upVal chladniVal then sy1 + 1 else sy1 in
  createVector sx2 sy2.

(** [behave(forming)]; [millis] is the clock reading of this call and
    [rand] the sample of the single [random2D()] the call may make. *)
Definition behave (millis rand : R) (forming : bool) (p : Particle) : Particle :=
  if Rlt_dec millis (lastScatterTime + SCATTER_DURATION) then
    let p1 := applyForce (Vector.mult (Vector.random2D rand) 0.8) p in
    let p2 := set_vel (Vector.mult (vel p1) 0.9) p1 in
    let p3 := update p2 in
    set_isSettled false p3
  else
    let p1 :=
      if forming then
        let chladniVal := getChladniValue (Vector.x (pos p)) (Vector.y (pos p)) in
        if Rlt_dec chladniVal tolerance then
          let q1 := set_vel (Vector.mult (vel p) 0.8) p in
          let q2 := set_acc (Vector.mult (acc q1) 0) q1 in
          set_isSettled true q2
        else
          let steer := steerForce chladniVal p in
          let q1 :=
            if Rgt_dec (Vector.mag steer) 0 then
              applyForce (Vector.mult (Vector.normalize steer) maxForce) p
            else
              applyForce (Vector.mult (Vector.random2D rand) 0.01) p in
          let q2 := set_vel (Vector.mult (vel q1) 0.98) q1 in
          set_isSettled false q2
      else p in
    update p1.

End ParticleMethods.

(** ** The sketch: globals, frames and events *)

Record Sketch : Type := mkSketch {
  stableM : R;
  stableN : R;
  particles : list Particle;
  patternShouldForm : bool;
  lastScatterTime : R;
  audioContextStarted : bool
}.

(** What the environment supplies during one call of [draw]: the clock read
    by the [behave] call of the i-th particle, the random sample that call
    may draw, and p5's frame counter. *)
Record Frame : Type := mkFrame {
  millis : nat -> R;
  random : nat -> R;
  frameCount : nat
}.

Record Voice : Type := mkVoice { oscFreq : R; oscAmp : R }.

(** The values [draw] sends to the audio engine. *)
Record Sound : Type := mkSound {
  movementAmp : R;
  movementFilterFreq : R;
  oscillators : list Voice
}.

(** The global initialisers followed by [setup]; [rnd] supplies the samples
    of the particle constructors. *)
Definition setup (rnd : nat -> R) : Sketch :=
  {| stableM := 1;
     stableN := 1;
     particles := List.map (fun i => newParticle (rnd (2 * i)%nat) (rnd (2 * i + 1)%nat))
                           (seq 0 NUM_PARTICLES);
     patternShouldForm := true;
     lastScatterTime := 0;
     audioContextStarted := false |}.

Definition ensureAudioStarted (s : Sketch) : Sketch :=
  if negb (audioContextStarted s)
  then mkSketch (stableM s) (stableN s) (particles s) (patternShouldForm s)
                (lastScatterTime s) true
  else s.

Definition mousePressed (s : Sketch) : Sketch := ensureAudioStarted s.

(** The [input] callbacks of the sliders; [v] is the slider's new value. *)
Definition sliderMInput (v : Z) (s : Sketch) : Sketch :=
  let s1 := ensureAudioStarted s in
  mkSketch (IZR v) (stableN s1) (particles s1) true
           (lastScatterTime s1) (audioContextStarted s1).

Definition sliderNInput (v : Z) (s : Sketch) : Sketch :=
  let s1 := ensureAudioStarted s in
  mkSketch (stableM s1) (IZR v) (particles s1) true
           (lastScatterTime s1) (audioContextStarted s1).

(** [keyPressed]; [now] is the reading of [millis()].  The two slider
    widgets are set back to 1 as well; setting a widget's value fires no
    [input] callback, and the widgets are not part of the state. *)
Definition keyPressed (key : string) (now : R) (s : Sketch) : Sketch :=
  if (String.eqb key "S" || String.eqb key "s")%bool then
    let s1 := mkSketch 1 1 (particles s) false now (audioContextStarted s) in
    ensureAudioStarted s1
  else s.

(** The particle loop of [draw], with its two counters. *)
Fixpoint drawParticles (s : Sketch) (f : Frame) (i : nat) (ps : list Particle)
         (numSettledParticles numMovingParticles : nat)
  : list Particle * (nat * nat) :=
  match ps with
  | [] => ([], (numSettledParticles, numMovingParticles))
  | p :: rest =>
      let p' := behave (stableM s) (stableN s) (lastScatterTime s)
                       (millis f i) (random f i) (patternShouldForm s) p in
      if isSettled p'
      then let '(rest', c) := drawParticles s f (S i) rest
                                (S numSettledParticles) numMovingParticles in
           (p' :: rest', c)
      else let '(rest', c) := drawParticles s f (S i) rest
                                numSettledParticles (S numMovingParticles) in
           (p' :: rest', c)
  end.

Definition melodicIntervals : list R := [1; 1.5; 2; 2.5].

(** The body of the oscillator loop for index [i]. *)
Definition settleVoice (baseFreq overallSettleAmp : R) (frameCount i : nat) : Voice :=
  let intervalMultiplier := nth (i mod List.length melodicIntervals) melodicIntervals 0 in
  let oscFreq0 := baseFreq * intervalMultiplier in
  let oscFreq1 := if (0 <? i)%nat
                  then oscFreq0 + sin (INR frameCount * 0.01 + INR i) * 1.5
                  else oscFreq0 in
  let oscAmp0 := overallSettleAmp / (if (i =? 0)%nat then 1 else 1.5) in
  let oscAmp1 := P5.constrain oscAmp0 0 0.4 in
  mkVoice oscFreq1 oscAmp1.

(** The sound generation part of [draw]. *)
Definition soundGeneration (numSettledParticles numMovingParticles : nat)
           (m n : R) (frameCount : nat) : Sound :=
  let movementAmp := P5.map (INR numMovingParticles) 0 (INR NUM_PARTICLES) 0.0 0.05 in
  let movementFilterFreq := P5.map (INR numMovingParticles) 0 (INR NUM_PARTICLES) 100 800 in
  let baseFreq := calculateFrequencyFromMN m n in
  let overallSettleAmp := P5.map (INR numSettledParticles) 0 (INR NUM_PARTICLES) 0 0.4 in
  mkSound movementAmp movementFilterFreq
          (List.map (settleVoice baseFreq overallSettleAmp frameCount)
                    (seq 0 NUM_SETTLE_OSCILLATORS)).

(** The counters [draw] holds once its particle loop is over. *)
Definition tallies (f : Frame) (s : Sketch) : nat * nat :=
  snd (drawParticles s f 0 (particles s) 0 0).

Definition draw (f : Frame) (s : Sketch) : Sketch * Sound :=
  let '(ps', (numSettledParticles, numMovingParticles)) :=
    drawParticles s f 0 (particles s) 0 0 in
  (mkSketch (stableM s) (stableN s) ps' (patternShouldForm s)
            (lastScatterTime s) (audioContextStarted s),
   soundGeneration numSettledParticles numMovingParticles
                   (stableM s) (stableN s) (frameCount f)).

Inductive Event : Type :=
| Draw (f : Frame)
| SliderM (v : Z)
| SliderN (v : Z)
| KeyPressed (key : string) (now : R)
| MousePressed.

Definition step (s : Sketch) (e : Event) : Sketch :=
  match e with
  | Draw f => fst (draw f s)
  | SliderM v => sliderMInput v s
  | SliderN v => sliderNInput v s
  | KeyPressed key now => keyPressed key now s
  | MousePressed => mousePressed s
  end.

Definition isDraw (e : Event) : bool :=
  match e with
  | Draw _ => true
  | _ => false
  end.

(** The sketch after [setup] and a sequence of events. *)
Definition run (rnd : nat -> R) (evs : list Event) : Sketch :=
  fold_left step evs (setup rnd).

(** What the particle loop of [draw] does to the particle met at index [j]. *)
Definition behaveAt (s : Sketch) (f : Frame) (j : nat) (p : Particle) : Particle :=
  behave (stableM s) (stableN s) (lastScatterTime s)
         (millis f j) (random f j) (patternShouldForm s) p.

(** ** Invariants of the running sketch *)

(** A particle as it is between two calls of [behave]: no pending
    acceleration, speed within [maxSpeed]. *)
Definition integrated (p : Particle) : Prop :=
  acc p = Vector.mk 0 0 /\ Vector.magSq (vel p) <= maxSpeed * maxSpeed.

Record Invariant (s : Sketch) : Prop := mkInvariant {
  inv_count : List.length (particles s) = NUM_PARTICLES;
  inv_modes : patternShouldForm s = false -> stableM s = 1 /\ stableN s = 1;
  inv_particles : Forall integrated (particles s)
}.

(** ** The descending branch in the words of its description *)

(** The unit contribution of one neighbour along the direction that leads
    to it: [1] toward a neighbour of lower magnitude, [-1] away from one of
    higher magnitude, nothing on a tie. *)
Definition toward (neighbour here : R) : R :=
  if Rlt_dec neighbour here then 1
  else if Rlt_dec here neighbour then -1 else 0.

(** ** Notions used by the further properties *)

Definition inCanvas (p : Particle) : Prop :=
  0 <= Vector.x (pos p) <= CANVAS_WIDTH /\
  0 <= Vector.y (pos p) <= CANVAS_HEIGHT.

(** The test of the settle branch, on the particle as [behave] meets it. *)
Definition onNode (m n : R) (p : Particle) : bool :=
  if Rlt_dec (getChladniValue m n (Vector.x (pos p)) (Vector.y (pos p))) tolerance
  then true else false.

(** The events whose handler reaches [ensureAudioStarted]. *)
Definition startsAudio (e : Event) : bool :=
  match e with
  | Draw _ => false
  | SliderM _ => true
  | SliderN _ => true
  | KeyPressed key _ => (String.eqb key "S" || String.eqb key "s")%bool
  | MousePressed => true
  end.

(** The sliders are created with [createSlider(1, 15, 1, 1)]. *)
Definition sliderInRange (e : Event) : Prop :=
  match e with
  | SliderM v => (1 <= v <= 15)%Z
  | SliderN v => (1 <= v <= 15)%Z
  | _ => True
  end.

(** The body of the settle branch followed by the integration. *)
Definition settleStep (p : Particle) : Particle :=
  update (set_isSettled true
            (set_acc (Vector.mult (acc p) 0)
               (set_vel (Vector.mult (vel p) 0.8) p))).

(** ** Recording *)

Module Recording.

Section Chunks.

(** The type of [e.data] in a [dataavailable] event. *)
Variable Chunk : Type.

(** The globals of the recording functions.  The [MediaRecorder] itself
    lives in the browser: its [start] and [stop] are calls into it, and it
    answers with the events below. *)
Record State : Type := mkState {
  isRecording : bool;
  recordedChunks : list Chunk
}.

Definition initial : State := mkState false [].

Definition startRecording (st : State) : State :=
  mkState true (recordedChunks st).

Definition stopRecording (st : State) : State :=
  mkState false (recordedChunks st).

Definition toggleRecording (st : State) : State :=
  if negb (isRecording st) then startRecording st else stopRecording st.

(** [recorder.ondataavailable]. *)
Definition ondataavailable (data : Chunk) (st : State) : State :=
  mkState (isRecording st) (recordedChunks st ++ [data]).

(** [saveRecording], the [onstop] handler: the chunks put in the downloaded
    blob, and the state it leaves. *)
Definition saveRecording (st : State) : list Chunk * State :=
  (recordedChunks st, mkState (isRecording st) []).

Inductive Event : Type :=
| ButtonPressed
| DataAvailable (data : Chunk)
| Stopped.

(** One event, on the state and the list of files downloaded so far. *)
Definition step (c : State * list (list Chunk)) (e : Event)
  : State * list (list Chunk) :=
  let '(st, files) := c in
  match e with
  | ButtonPressed => (toggleRecording st, files)
  | DataAvailable data => (ondataavailable data st, files)
  | Stopped => let '(blob, st') := saveRecording st in (st', files ++ [blob])
  end.

Definition run (evs : list Event) : State * list (list Chunk) :=
  fold_left step evs (initial, []).

(** The chunks the browser delivered, in order. *)
Fixpoint delivered (evs : list Event) : list Chunk :=
  match evs with
  | [] => []
  | DataAvailable data :: rest => data :: delivered rest
  | _ :: rest => delivered rest
  end.

Fixpoint presses (evs : list Event) : nat :=
  match evs with
  | [] => 0%nat
  | ButtonPressed :: rest => S (presses rest)
  | _ :: rest => presses rest
  end.

End Chunks.

End Recording.

(** * Properties *)

(** ** Vectors *)

Module VectorFacts.

Lemma div_nonneg (a b : R) : 0 <= a -> 0 < b -> 0 <= a / b.
Proof.
  intros Ha Hb. unfold Rdiv. apply Rmult_le_pos; [exact Ha|].
  left. now apply Rinv_0_lt_compat.
Qed.

Lemma eta (v : Vector.t) : Vector.mk (Vector.x v) (Vector.y v) = v.
Proof. destruct v; reflexivity. Qed.

Lemma magSq_nonneg (v : Vector.t) : 0 <= Vector.magSq v.
Proof. unfold Vector.magSq. nra. Qed.

Lemma mag_nonneg (v : Vector.t) : 0 <= Vector.mag v.
Proof. apply sqrt_pos. Qed.

Lemma mag_sq (v : Vector.t) : Vector.mag v * Vector.mag v = Vector.magSq v.
Proof. apply sqrt_sqrt, magSq_nonneg. Qed.

Lemma mag_mult (v : Vector.t) (k : R) :
  0 <= k -> Vector.mag (Vector.mult v k) = Vector.mag v * k.
Proof.
  intros Hk. unfold Vector.mag.
  replace (Vector.magSq (Vector.mult v k)) with (Vector.magSq v * (k * k))
    by (unfold Vector.magSq, Vector.mult; simpl; ring).
  rewrite sqrt_mult_alt by apply magSq_nonneg.
  now rewrite sqrt_square.
Qed.

(** The magnitude is zero exactly on the zero vector. *)
Lemma mag_zero_iff (v : Vector.t) :
  Vector.mag v = 0 <-> v = Vector.mk 0 0.
Proof.
  split.
  - intros H. apply sqrt_eq_0 in H; [|apply magSq_nonneg].
    destruct v as [a b]. unfold Vector.magSq in H. simpl in H.
    assert (a = 0) by nra. assert (b = 0) by nra. now subst.
  - intros ->. unfold Vector.mag, Vector.magSq. simpl.
    replace (0 * 0 + 0 * 0) with 0 by ring. apply sqrt_0.
Qed.

Lemma mag_le_iff (v : Vector.t) (m : R) :
  0 <= m -> (Vector.mag v <= m <-> Vector.magSq v <= m * m).
Proof.
  intros Hm. pose proof (mag_nonneg v) as Hn. pose proof (mag_sq v) as Hs.
  split; intros H; nra.
Qed.

Lemma limit_below (v : Vector.t) (m : R) :
  Vector.magSq v <= m * m -> Vector.limit v m = v.
Proof.
  intros H. unfold Vector.limit.
  destruct (Rgt_dec (Vector.magSq v) (m * m)); [lra | reflexivity].
Qed.

Lemma limit_above (v : Vector.t) (m : R) :
  Vector.magSq v > m * m ->
  Vector.limit v m = Vector.mult v (m / Vector.mag v) /\ 0 < Vector.mag v.
Proof.
  intros H. unfold Vector.limit.
  destruct (Rgt_dec (Vector.magSq v) (m * m)); [|lra].
  assert (Hp : 0 < Vector.mag v).
  { apply sqrt_lt_R0. nra. }
  split; [|exact Hp].
  fold (Vector.mag v). unfold Vector.div.
  destruct (Req_dec_T (Vector.mag v) 0); [lra|].
  unfold Vector.mult; simpl. f_equal; field; lra.
Qed.

Lemma limit_mag (v : Vector.t) (m : R) :
  0 <= m -> Vector.mag (Vector.limit v m) = Rmin (Vector.mag v) m.
Proof.
  intros Hm.
  destruct (Rle_dec (Vector.magSq v) (m * m)) as [Hle | Hgt].
  - rewrite limit_below by exact Hle.
    apply (mag_le_iff v m Hm) in Hle. now rewrite Rmin_left.
  - apply Rnot_le_gt in Hgt.
    destruct (limit_above v m Hgt) as [-> Hp].
    rewrite mag_mult by (apply div_nonneg; lra).
    assert (Hlt : m < Vector.mag v).
    { pose proof (mag_sq v). nra. }
    rewrite Rmin_right by lra. field. lra.
Qed.

Lemma limit_magSq (v : Vector.t) (m : R) :
  0 <= m -> Vector.magSq (Vector.limit v m) <= m * m.
Proof.
  intros Hm. apply (mag_le_iff _ m Hm). rewrite limit_mag by exact Hm.
  apply Rmin_r.
Qed.

Lemma random2D_magSq (u : R) : Vector.magSq (Vector.random2D u) = 1.
Proof.
  unfold Vector.random2D, Vector.fromAngle, Vector.magSq. simpl.
  pose proof (sin2_cos2 (u * P5.TWO_PI)) as H. unfold Rsqr in H. lra.
Qed.

Lemma random2D_mag (u : R) : Vector.mag (Vector.random2D u) = 1.
Proof. unfold Vector.mag. rewrite random2D_magSq. apply sqrt_1. Qed.

Lemma normalize_mag (v : Vector.t) :
  v <> Vector.mk 0 0 -> Vector.mag (Vector.normalize v) = 1.
Proof.
  intros Hv. unfold Vector.normalize.
  assert (Hn : Vector.mag v <> 0) by (intros H; now apply mag_zero_iff in H).
  destruct (Req_dec_T (Vector.mag v) 0); [contradiction|].
  pose proof (mag_nonneg v).
  rewrite mag_mult.
  - field. exact Hn.
  - apply div_nonneg; lra.
Qed.

End VectorFacts.

(** ** Field function *)

(** C7: swapping the two mode numbers negates the field value, at every
    point and for all mode numbers. *)
Theorem chladni_antisymmetric (x y m n : R) :
  chladni x y m n = - chladni x y n m.
Proof. unfold chladni. cbv zeta. ring. Qed.

(** With equal mode numbers the two products coincide and the field vanishes. *)
Lemma chladni_equal_modes (x y m : R) : chladni x y m m = 0.
Proof. unfold chladni. cbv zeta. ring. Qed.

Lemma getChladniValue_equal_modes (m x y : R) : getChladniValue m m x y = 0.
Proof.
  unfold getChladniValue, P5.abs. cbv zeta.
  rewrite chladni_equal_modes. apply Rabs_R0.
Qed.

Lemma getChladniValue_nonneg (m n x y : R) : 0 <= getChladniValue m n x y.
Proof. unfold getChladniValue, P5.abs. apply Rabs_pos. Qed.

(** ** Base tone frequency *)

(** C2 as stated fails: for m = n = 1 the mapped value is not within 1 Hz
    of 51.9 Hz. *)
Lemma base_frequency_not_51_9 :
  ~ (calculateFrequencyFromMN 1 1 = P5.map 2.4 2 40 50 600 /\
     Rabs (calculateFrequencyFromMN 1 1 - 51.9) <= 1).
Proof.
  intros [_ H].
  pose proof (Rle_abs (calculateFrequencyFromMN 1 1 - 51.9)) as Hle.
  unfold calculateFrequencyFromMN, P5.map in H, Hle. lra.
Qed.

(** C2, amended: for m = n = 1 the complexity is 2.4, the base frequency is
    its linear map from [2, 40] onto [50, 600], which is 1060/19, about
    55.79 Hz. *)
Theorem base_frequency_1_1 :
  1 * 1.2 + 1 * 1.2 = 2.4 /\
  calculateFrequencyFromMN 1 1 = P5.map 2.4 2 40 50 600 /\
  calculateFrequencyFromMN 1 1 = 1060 / 19 /\
  Rabs (calculateFrequencyFromMN 1 1 - 55.79) < 0.01.
Proof.
  assert (E : calculateFrequencyFromMN 1 1 = 1060 / 19).
  { unfold calculateFrequencyFromMN, P5.map. lra. }
  repeat split.
  - lra.
  - unfold calculateFrequencyFromMN, P5.map. lra.
  - exact E.
  - rewrite E. apply Rabs_def1; lra.
Qed.

(** ** Motion integration *)

Lemma wrap_cases (bound c : R) :
  wrap bound c =
  if Rlt_dec c 0 then bound else if Rgt_dec c bound then 0 else c.
Proof.
  unfold wrap. destruct (Rlt_dec c 0); [|reflexivity].
  destruct (Rgt_dec bound bound); [lra | reflexivity].
Qed.

Lemma maxSpeed_nonneg : 0 <= maxSpeed.
Proof. unfold maxSpeed. lra. Qed.

Lemma update_vel (p : Particle) :
  vel (update p) = Vector.limit (Vector.add (vel p) (acc p)) maxSpeed.
Proof. reflexivity. Qed.

Lemma update_acc (p : Particle) : acc (update p) = Vector.mk 0 0.
Proof.
  unfold update. simpl. unfold Vector.mult. f_equal; ring.
Qed.

Lemma update_isSettled (p : Particle) : isSettled (update p) = isSettled p.
Proof. reflexivity. Qed.

Lemma update_speed (p : Particle) :
  Vector.magSq (vel (update p)) <= maxSpeed * maxSpeed.
Proof. rewrite update_vel. apply VectorFacts.limit_magSq, maxSpeed_nonneg. Qed.

(** C5: [update] adds the acceleration to the velocity, limits the velocity
    to magnitude 2.5 keeping its direction, adds it to the position, zeroes
    the acceleration, and sends a position component below 0 to the far
    edge and one above the far edge to exactly 0; a component inside the
    canvas is left as integrated. *)
Theorem update_integrates (p : Particle) :
  let v1 := Vector.add (vel p) (acc p) in
  let v2 := if Rle_dec (Vector.mag v1) 2.5 then v1
            else Vector.mult v1 (2.5 / Vector.mag v1) in
  let qx := Vector.x (pos p) + Vector.x v2 in
  let qy := Vector.y (pos p) + Vector.y v2 in
  vel (update p) = v2 /\
  Vector.mag v2 = Rmin (Vector.mag v1) 2.5 /\
  Vector.x (pos (update p)) =
    (if Rlt_dec qx 0 then CANVAS_WIDTH
     else if Rgt_dec qx CANVAS_WIDTH then 0 else qx) /\
  Vector.y (pos (update p)) =
    (if Rlt_dec qy 0 then CANVAS_HEIGHT
     else if Rgt_dec qy CANVAS_HEIGHT then 0 else qy) /\
  acc (update p) = Vector.mk 0 0 /\
  isSettled (update p) = isSettled p.
Proof.
  intros v1 v2 qx qy.
  assert (Hv : vel (update p) = v2).
  { rewrite update_vel. fold v1. subst v2. unfold maxSpeed.
    destruct (Rle_dec (Vector.mag v1) 2.5) as [Hle | Hgt].
    - apply VectorFacts.limit_below.
      apply (VectorFacts.mag_le_iff v1 2.5); [lra | exact Hle].
    - apply VectorFacts.limit_above.
      apply Rnot_le_gt in Hgt.
      destruct (Rle_dec (Vector.magSq v1) (2.5 * 2.5)) as [H | H]; [|lra].
      apply (VectorFacts.mag_le_iff v1 2.5) in H; lra. }
  split; [exact Hv|]. split.
  { rewrite <- Hv, update_vel. fold v1.
    apply VectorFacts.limit_mag, maxSpeed_nonneg. }
  split.
  { subst qx. rewrite <- Hv, <- wrap_cases. reflexivity. }
  split.
  { subst qy. rewrite <- Hv, <- wrap_cases. reflexivity. }
  split; [apply update_acc | reflexivity].
Qed.

(** ** The branches of [behave] *)

Section BehaveBranches.

Variables m n last : R.

Lemma behave_scatter (now rand : R) (forming : bool) (p : Particle) :
  now < last + SCATTER_DURATION ->
  behave m n last now rand forming p =
  set_isSettled false
    (update (set_vel (Vector.mult (vel p) 0.9)
               (applyForce (Vector.mult (Vector.random2D rand) 0.8) p))).
Proof.
  intros H. unfold behave.
  destruct (Rlt_dec now (last + SCATTER_DURATION)); [reflexivity | contradiction].
Qed.

Lemma behave_coast (now rand : R) (p : Particle) :
  ~ now < last + SCATTER_DURATION ->
  behave m n last now rand false p = update p.
Proof.
  intros H. unfold behave.
  destruct (Rlt_dec now (last + SCATTER_DURATION)); [contradiction | reflexivity].
Qed.

Lemma behave_settle (now rand : R) (p : Particle) :
  ~ now < last + SCATTER_DURATION ->
  getChladniValue m n (Vector.x (pos p)) (Vector.y (pos p)) < tolerance ->
  behave m n last now rand true p =
  update (set_isSettled true
            (set_acc (Vector.mult (acc p) 0)
               (set_vel (Vector.mult (vel p) 0.8) p))).
Proof.
  intros H Hc. unfold behave.
  destruct (Rlt_dec now (last + SCATTER_DURATION)); [contradiction|].
  destruct (Rlt_dec _ tolerance); [reflexivity | contradiction].
Qed.

Lemma behave_descend (now rand : R) (p : Particle) :
  ~ now < last + SCATTER_DURATION ->
  ~ getChladniValue m n (Vector.x (pos p)) (Vector.y (pos p)) < tolerance ->
  let c := getChladniValue m n (Vector.x (pos p)) (Vector.y (pos p)) in
  let steer := steerForce m n c p in
  let force := if Rgt_dec (Vector.mag steer) 0
               then Vector.mult (Vector.normalize steer) maxForce
               else Vector.mult (Vector.random2D rand) 0.01 in
  behave m n last now rand true p =
  update (set_isSettled false
            (set_vel (Vector.mult (vel p) 0.98) (applyForce force p))).
Proof.
  intros H Hc c steer force. unfold behave.
  destruct (Rlt_dec now (last + SCATTER_DURATION)); [contradiction|].
  fold c. destruct (Rlt_dec c tolerance); [contradiction|].
  fold steer. subst force. destruct (Rgt_dec (Vector.mag steer) 0); reflexivity.
Qed.

(** Every path through [behave] ends in [update]. *)
Lemma behave_ends_in_update (now rand : R) (forming : bool) (p : Particle) :
  exists q b, behave m n last now rand forming p = set_isSettled b (update q).
Proof.
  unfold behave.
  destruct (Rlt_dec now (last + SCATTER_DURATION)).
  - eexists _, _. reflexivity.
  - match goal with |- exists q b, update ?u = _ =>
      exists u, (isSettled u); reflexivity end.
Qed.

Lemma behave_acc (now rand : R) (forming : bool) (p : Particle) :
  acc (behave m n last now rand forming p) = Vector.mk 0 0.
Proof.
  destruct (behave_ends_in_update now rand forming p) as (q & b & ->).
  simpl. apply update_acc.
Qed.

Lemma behave_speed (now rand : R) (forming : bool) (p : Particle) :
  Vector.magSq (vel (behave m n last now rand forming p)) <= maxSpeed * maxSpeed.
Proof.
  destruct (behave_ends_in_update now rand forming p) as (q & b & ->).
  simpl. apply update_speed.
Qed.

(** The only ways for a particle to leave [behave] settled. *)
Lemma behave_settled_inv (now rand : R) (forming : bool) (p : Particle) :
  isSettled (behave m n last now rand forming p) = true ->
  ~ now < last + SCATTER_DURATION /\
  ((forming = true /\
    getChladniValue m n (Vector.x (pos p)) (Vector.y (pos p)) < tolerance) \/
   (forming = false /\ isSettled p = true)).
Proof.
  unfold behave.
  destruct (Rlt_dec now (last + SCATTER_DURATION)) as [Hw | Hw].
  - simpl. discriminate.
  - rewrite update_isSettled. intros H. split; [exact Hw|].
    destruct forming; [left | right; now split].
    split; [reflexivity|].
    destruct (Rlt_dec _ tolerance) as [Hc | Hc]; [exact Hc|].
    simpl in H. discriminate.
Qed.

End BehaveBranches.

(** ** The particle loop *)

Section DrawLoop.

Variables (s : Sketch) (f : Frame).

Lemma drawParticles_nth (ps : list Particle) :
  forall i a b k,
    nth_error (fst (drawParticles s f i ps a b)) k =
    option_map (behaveAt s f (i + k)) (nth_error ps k).
Proof.
  induction ps as [|p rest IH]; intros i a b k.
  - destruct k; reflexivity.
  - simpl. fold (behaveAt s f i p).
    destruct (isSettled (behaveAt s f i p)).
    + specialize (IH (S i) (S a) b).
      destruct (drawParticles s f (S i) rest (S a) b) as [rest' c].
      destruct k as [|k]; simpl.
      * now rewrite Nat.add_0_r.
      * rewrite Nat.add_succ_r. apply IH.
    + specialize (IH (S i) a (S b)).
      destruct (drawParticles s f (S i) rest a (S b)) as [rest' c].
      destruct k as [|k]; simpl.
      * now rewrite Nat.add_0_r.
      * rewrite Nat.add_succ_r. apply IH.
Qed.

Lemma drawParticles_length (ps : list Particle) :
  forall i a b, List.length (fst (drawParticles s f i ps a b)) = List.length ps.
Proof.
  induction ps as [|p rest IH]; intros i a b; [reflexivity|].
  simpl. destruct (isSettled _).
  - specialize (IH (S i) (S a) b).
    destruct (drawParticles s f (S i) rest (S a) b). simpl in *. now rewrite IH.
  - specialize (IH (S i) a (S b)).
    destruct (drawParticles s f (S i) rest a (S b)). simpl in *. now rewrite IH.
Qed.

(** Each particle bumps exactly one of the two counters. *)
Lemma drawParticles_counts (ps : list Particle) :
  forall i a b,
    (fst (snd (drawParticles s f i ps a b)) +
     snd (snd (drawParticles s f i ps a b)) = a + b + List.length ps)%nat.
Proof.
  induction ps as [|p rest IH]; intros i a b.
  - simpl. lia.
  - simpl. destruct (isSettled _).
    + specialize (IH (S i) (S a) b).
      destruct (drawParticles s f (S i) rest (S a) b). simpl in *. lia.
    + specialize (IH (S i) a (S b)).
      destruct (drawParticles s f (S i) rest a (S b)). simpl in *. lia.
Qed.

Lemma drawParticles_Forall (P : Particle -> Prop) (ps : list Particle) :
  (forall j p, P (behaveAt s f j p)) ->
  forall i a b, Forall P (fst (drawParticles s f i ps a b)).
Proof.
  intros HP. induction ps as [|p rest IH]; intros i a b.
  - constructor.
  - simpl. fold (behaveAt s f i p). destruct (isSettled (behaveAt s f i p)).
    + specialize (IH (S i) (S a) b).
      destruct (drawParticles s f (S i) rest (S a) b). simpl in *.
      constructor; [apply HP | exact IH].
    + specialize (IH (S i) a (S b)).
      destruct (drawParticles s f (S i) rest a (S b)). simpl in *.
      constructor; [apply HP | exact IH].
Qed.

Lemma draw_particles :
  particles (fst (draw f s)) = fst (drawParticles s f 0 (particles s) 0 0).
Proof.
  unfold draw. destruct (drawParticles s f 0 (particles s) 0 0) as [ps' [a b]].
  reflexivity.
Qed.

Lemma draw_nth (k : nat) :
  nth_error (particles (fst (draw f s))) k =
  option_map (behaveAt s f k) (nth_error (particles s) k).
Proof. rewrite draw_particles. apply drawParticles_nth. Qed.

Lemma draw_sound :
  snd (draw f s) =
  soundGeneration (fst (tallies f s)) (snd (tallies f s))
                  (stableM s) (stableN s) (frameCount f).
Proof.
  unfold draw, tallies.
  destruct (drawParticles s f 0 (particles s) 0 0) as [ps' [a b]].
  reflexivity.
Qed.

Lemma draw_globals :
  stableM (fst (draw f s)) = stableM s /\
  stableN (fst (draw f s)) = stableN s /\
  patternShouldForm (fst (draw f s)) = patternShouldForm s /\
  lastScatterTime (fst (draw f s)) = lastScatterTime s.
Proof.
  unfold draw. destruct (drawParticles s f 0 (particles s) 0 0) as [ps' [a b]].
  simpl. auto.
Qed.

Lemma tallies_sum :
  (fst (tallies f s) + snd (tallies f s) = List.length (particles s))%nat.
Proof. unfold tallies. rewrite drawParticles_counts. lia. Qed.

End DrawLoop.

(** ** Invariants *)

Lemma setup_nth (rnd : nat -> R) (i : nat) :
  (i < NUM_PARTICLES)%nat ->
  nth_error (particles (setup rnd)) i =
  Some (newParticle (rnd (2 * i)%nat) (rnd (2 * i + 1)%nat)).
Proof.
  intros Hi. unfold setup. cbn [particles].
  rewrite nth_error_map, nth_error_seq.
  apply Nat.ltb_lt in Hi. rewrite Hi. reflexivity.
Qed.

Lemma setup_invariant (rnd : nat -> R) : Invariant (setup rnd).
Proof.
  split.
  - unfold setup. cbn [particles]. now rewrite length_map, length_seq.
  - unfold setup. cbn [patternShouldForm]. discriminate.
  - unfold setup. cbn [particles]. apply Forall_forall. intros p Hp.
    apply in_map_iff in Hp. destruct Hp as (i & <- & _).
    split; [reflexivity|].
    unfold newParticle, createVector, Vector.magSq, maxSpeed. simpl. lra.
Qed.

Lemma ensureAudioStarted_globals (s : Sketch) :
  stableM (ensureAudioStarted s) = stableM s /\
  stableN (ensureAudioStarted s) = stableN s /\
  particles (ensureAudioStarted s) = particles s /\
  patternShouldForm (ensureAudioStarted s) = patternShouldForm s /\
  lastScatterTime (ensureAudioStarted s) = lastScatterTime s.
Proof.
  unfold ensureAudioStarted. destruct (negb (audioContextStarted s)); simpl; auto.
Qed.

Lemma keyPressed_scatter (key : string) (t0 : R) (s : Sketch) :
  key = "s"%string \/ key = "S"%string ->
  lastScatterTime (keyPressed key t0 s) = t0 /\
  patternShouldForm (keyPressed key t0 s) = false /\
  stableM (keyPressed key t0 s) = 1 /\
  stableN (keyPressed key t0 s) = 1 /\
  particles (keyPressed key t0 s) = particles s.
Proof.
  intros Hk. unfold keyPressed.
  assert (E : (String.eqb key "S" || String.eqb key "s")%bool = true).
  { destruct Hk as [-> | ->]; reflexivity. }
  rewrite E.
  destruct (ensureAudioStarted_globals
              (mkSketch 1 1 (particles s) false t0 (audioContextStarted s)))
    as (EM & EN & EP & EF & EL).
  rewrite EM, EN, EP, EF, EL. simpl. auto.
Qed.

Lemma sliderMInput_globals (v : Z) (s : Sketch) :
  stableM (sliderMInput v s) = IZR v /\
  stableN (sliderMInput v s) = stableN s /\
  particles (sliderMInput v s) = particles s /\
  patternShouldForm (sliderMInput v s) = true /\
  lastScatterTime (sliderMInput v s) = lastScatterTime s.
Proof.
  destruct (ensureAudioStarted_globals s) as (EM & EN & EP & EF & EL).
  unfold sliderMInput. simpl. auto.
Qed.

Lemma sliderNInput_globals (v : Z) (s : Sketch) :
  stableM (sliderNInput v s) = stableM s /\
  stableN (sliderNInput v s) = IZR v /\
  particles (sliderNInput v s) = particles s /\
  patternShouldForm (sliderNInput v s) = true /\
  lastScatterTime (sliderNInput v s) = lastScatterTime s.
Proof.
  destruct (ensureAudioStarted_globals s) as (EM & EN & EP & EF & EL).
  unfold sliderNInput. simpl. auto.
Qed.

Lemma ensureAudioStarted_invariant (s : Sketch) :
  Invariant s -> Invariant (ensureAudioStarted s).
Proof.
  intros [Hc Hm Hp].
  destruct (ensureAudioStarted_globals s) as (EM & EN & EP & EF & _).
  split; rewrite ?EM, ?EN, ?EP, ?EF; assumption.
Qed.

Lemma draw_invariant (f : Frame) (s : Sketch) :
  Invariant s -> Invariant (fst (draw f s)).
Proof.
  intros [Hc Hm Hp].
  destruct (draw_globals s f) as (EM & EN & EF & _).
  split.
  - rewrite draw_particles, drawParticles_length. exact Hc.
  - rewrite EM, EN, EF. exact Hm.
  - rewrite draw_particles. apply drawParticles_Forall.
    intros j p. split; [apply behave_acc | apply behave_speed].
Qed.

Lemma step_invariant (s : Sketch) (e : Event) :
  Invariant s -> Invariant (step s e).
Proof.
  intros H. destruct e as [f | v | v | key now |]; simpl.
  - now apply draw_invariant.
  - apply ensureAudioStarted_invariant in H. destruct H as [Hc Hm Hp].
    unfold sliderMInput. split; simpl; [exact Hc | discriminate | exact Hp].
  - apply ensureAudioStarted_invariant in H. destruct H as [Hc Hm Hp].
    unfold sliderNInput. split; simpl; [exact Hc | discriminate | exact Hp].
  - unfold keyPressed.
    destruct (String.eqb key "S" || String.eqb key "s")%bool; [|exact H].
    apply ensureAudioStarted_invariant. destruct H as [Hc Hm Hp].
    split; simpl; auto.
  - now apply ensureAudioStarted_invariant.
Qed.

Lemma steps_invariant (evs : list Event) :
  forall s, Invariant s -> Invariant (fold_left step evs s).
Proof.
  induction evs as [|e evs IH]; intros s H; simpl; [exact H|].
  apply IH, step_invariant, H.
Qed.

Lemma run_invariant (rnd : nat -> R) (evs : list Event) : Invariant (run rnd evs).
Proof. apply steps_invariant, setup_invariant. Qed.

(** ** Tallies *)

Lemma drawParticles_tally (s : Sketch) (f : Frame) (ps : list Particle) :
  forall i a b,
    fst (snd (drawParticles s f i ps a b)) =
      (a + List.length (filter isSettled (fst (drawParticles s f i ps a b))))%nat /\
    snd (snd (drawParticles s f i ps a b)) =
      (b + List.length (filter (fun p => negb (isSettled p))
                               (fst (drawParticles s f i ps a b))))%nat.
Proof.
  induction ps as [|p rest IH]; intros i a b.
  - simpl. lia.
  - simpl. destruct (isSettled (behave _ _ _ _ _ _ p)) eqn:E.
    + specialize (IH (S i) (S a) b).
      destruct (drawParticles s f (S i) rest (S a) b) as [rest' c].
      simpl in *. rewrite E. simpl. lia.
    + specialize (IH (S i) a (S b)).
      destruct (drawParticles s f (S i) rest a (S b)) as [rest' c].
      simpl in *. rewrite E. simpl. lia.
Qed.

(** C4: in every frame of a running sketch the two counters of [draw] add
    up to the fixed number of particles; the first counts the particles
    that [behave] left settled, the second the others. *)
Theorem tallies_total (rnd : nat -> R) (evs : list Event) (f : Frame) :
  let s := run rnd evs in
  let s' := fst (draw f s) in
  (fst (tallies f s) + snd (tallies f s) = NUM_PARTICLES)%nat /\
  List.length (particles s) = NUM_PARTICLES /\
  List.length (particles s') = NUM_PARTICLES /\
  fst (tallies f s) = List.length (filter isSettled (particles s')) /\
  snd (tallies f s) =
    List.length (filter (fun p => negb (isSettled p)) (particles s')).
Proof.
  intros s s'.
  pose proof (run_invariant rnd evs) as Hs. fold s in Hs.
  pose proof (draw_invariant f s Hs) as Hs'. fold s' in Hs'.
  split; [rewrite tallies_sum; apply (inv_count _ Hs)|].
  split; [apply (inv_count _ Hs)|].
  split; [apply (inv_count _ Hs')|].
  subst s'. rewrite draw_particles. unfold tallies.
  destruct (drawParticles_tally s f (particles s) 0 0 0) as [Ha Hb].
  split; [exact Ha | exact Hb].
Qed.

(** ** Settled particles *)

(** Within one frame: a particle that leaves [behave] settled was at a
    position where the field magnitude is below the tolerance. *)
Lemma frame_settle_condition (rnd : nat -> R) (evs : list Event)
      (f : Frame) (p : Particle) (i : nat) :
  let s := run rnd evs in
  isSettled (behaveAt s f i p) = true ->
  getChladniValue (stableM s) (stableN s) (Vector.x (pos p)) (Vector.y (pos p)) < 0.03.
Proof.
  intros s Hset.
  apply behave_settled_inv in Hset.
  destruct Hset as [_ [[_ Hc] | [Hf _]]]; [exact Hc|].
  destruct (inv_modes _ (run_invariant rnd evs) Hf) as [EM EN].
  fold s in EM, EN. rewrite EM, EN, getChladniValue_equal_modes. lra.
Qed.

Lemma step_particles (s : Sketch) (e : Event) :
  isDraw e = false -> particles (step s e) = particles s.
Proof.
  destruct e as [f | v | v | key now |]; cbn [step isDraw]; intros H.
  - discriminate.
  - now destruct (sliderMInput_globals v s) as (_ & _ & E & _).
  - now destruct (sliderNInput_globals v s) as (_ & _ & E & _).
  - unfold keyPressed.
    destruct (String.eqb key "S" || String.eqb key "s")%bool; [|reflexivity].
    now destruct (ensureAudioStarted_globals
                    (mkSketch 1 1 (particles s) false now (audioContextStarted s)))
      as (_ & _ & E & _).
  - now destruct (ensureAudioStarted_globals s) as (_ & _ & E & _).
Qed.

Lemma run_app (rnd : nat -> R) (evs1 evs2 : list Event) :
  run rnd (evs1 ++ evs2) = fold_left step evs2 (run rnd evs1).
Proof. unfold run. apply fold_left_app. Qed.

Lemma setup_unsettled (rnd : nat -> R) (i : nat) (p : Particle) :
  nth_error (particles (setup rnd)) i = Some p -> isSettled p = false.
Proof.
  intros H. apply nth_error_In in H. unfold setup in H. cbn [particles] in H.
  apply in_map_iff in H. destruct H as (k & <- & _). reflexivity.
Qed.

(** C3: at every moment of a running sketch, a particle whose settled flag
    is true has been through a frame, and in the most recent one its
    [behave] call found it at a position where the field magnitude, for the
    modes of that frame, was below the tolerance 0.03. *)
Theorem settled_below_tolerance (rnd : nat -> R) (evs : list Event)
        (i : nat) (p : Particle) :
  nth_error (particles (run rnd evs)) i = Some p ->
  isSettled p = true ->
  exists (evs1 : list Event) (f : Frame) (evs2 : list Event) (p0 : Particle),
    evs = evs1 ++ Draw f :: evs2 /\
    Forall (fun e => isDraw e = false) evs2 /\
    nth_error (particles (run rnd evs1)) i = Some p0 /\
    p = behave (stableM (run rnd evs1)) (stableN (run rnd evs1))
               (lastScatterTime (run rnd evs1)) (millis f i) (random f i)
               (patternShouldForm (run rnd evs1)) p0 /\
    getChladniValue (stableM (run rnd evs1)) (stableN (run rnd evs1))
                    (Vector.x (pos p0)) (Vector.y (pos p0)) < 0.03.
Proof.
  induction evs as [|e evs IH] using rev_ind; intros Hp Hset.
  - apply setup_unsettled in Hp. congruence.
  - rewrite run_app in Hp. cbn [fold_left] in Hp.
    destruct (isDraw e) eqn:Ed.
    + destruct e as [f | | | |]; try discriminate. cbn [step] in Hp.
      rewrite draw_nth in Hp.
      destruct (nth_error (particles (run rnd evs)) i) as [p0|] eqn:E0;
        [|discriminate].
      simpl in Hp. injection Hp as <-.
      exists evs, f, [], p0.
      split; [reflexivity|]. split; [constructor|]. split; [exact E0|].
      split; [reflexivity|].
      apply (frame_settle_condition rnd evs f p0 i Hset).
    + rewrite step_particles in Hp by exact Ed.
      destruct (IH Hp Hset) as (evs1 & f & evs2 & p0 & -> & Hnd & H0 & Hb & Hc).
      exists evs1, f, (evs2 ++ [e]), p0.
      split; [now rewrite <- app_assoc|].
      split; [apply Forall_app; split; [exact Hnd | now constructor]|].
      auto.
Qed.

Lemma zero_lt_NUM_PARTICLES : (0 < NUM_PARTICLES)%nat.
Proof. apply Nat.ltb_lt. reflexivity. Qed.

Lemma settled_below_tolerance_witness :
  let f := mkFrame (fun _ => 600) (fun _ => 0) 1 in
  let evs := [Draw f; SliderM 3] in
  let p := behave 1 1 0 600 0 true (newParticle 0 0) in
  (nth_error (particles (run (fun _ => 0) evs)) 0 = Some p /\
   isSettled p = true) /\
  exists (evs1 : list Event) (f1 : Frame) (evs2 : list Event) (p0 : Particle),
    evs = evs1 ++ Draw f1 :: evs2 /\
    Forall (fun e => isDraw e = false) evs2 /\
    nth_error (particles (run (fun _ => 0) evs1)) 0 = Some p0 /\
    p = behave (stableM (run (fun _ => 0) evs1)) (stableN (run (fun _ => 0) evs1))
               (lastScatterTime (run (fun _ => 0) evs1)) (millis f1 0) (random f1 0)
               (patternShouldForm (run (fun _ => 0) evs1)) p0 /\
    getChladniValue (stableM (run (fun _ => 0) evs1)) (stableN (run (fun _ => 0) evs1))
                    (Vector.x (pos p0)) (Vector.y (pos p0)) < 0.03.
Proof.
  intros f evs p.
  assert (H1 : nth_error (particles (run (fun _ => 0) evs)) 0 = Some p).
  { change (run (fun _ => 0) evs)
      with (step (fst (draw f (setup (fun _ => 0)))) (SliderM 3)).
    rewrite step_particles by reflexivity.
    rewrite draw_nth, (setup_nth (fun _ => 0) 0 zero_lt_NUM_PARTICLES).
    reflexivity. }
  assert (H2 : isSettled p = true).
  { subst p. rewrite behave_settle.
    - reflexivity.
    - unfold SCATTER_DURATION. lra.
    - rewrite getChladniValue_equal_modes. unfold tolerance. lra. }
  split; [auto|].
  exact (settled_below_tolerance (fun _ => 0) evs 0 p H1 H2).
Defined.

(** ** Sonification *)

Lemma INR_NUM_PARTICLES : INR NUM_PARTICLES = 9000.
Proof. unfold NUM_PARTICLES. rewrite INR_IZR_INZ. reflexivity. Qed.

Lemma constrain_inside (n low high : R) :
  low <= n <= high -> P5.constrain n low high = n.
Proof.
  intros [Hl Hh]. unfold P5.constrain.
  rewrite Rmin_left by exact Hh. now rewrite Rmax_left.
Qed.

Lemma constrain_bounds (n low high : R) :
  low <= high -> low <= P5.constrain n low high <= high.
Proof.
  intros H. unfold P5.constrain. split.
  - apply Rmax_r.
  - apply Rmax_lub; [apply Rmin_r | exact H].
Qed.

Lemma tally_le_total (rnd : nat -> R) (evs : list Event) (f : Frame) :
  0 <= INR (fst (tallies f (run rnd evs))) <= 9000.
Proof.
  split; [apply pos_INR|].
  rewrite <- INR_NUM_PARTICLES. apply le_INR.
  pose proof (tallies_sum (run rnd evs) f) as H.
  rewrite (inv_count _ (run_invariant rnd evs)) in H. lia.
Qed.

(** C8: the noise amplitude sent by [draw] is the linear map of the moving
    count from [0, NUM_PARTICLES] to [0, 0.05] and the filter cutoff its
    linear map to [100, 800]; a moving count of 0 gives amplitude 0 and a
    moving count of NUM_PARTICLES gives amplitude 0.05. *)
Theorem chaos_noise_mapping (f : Frame) (s : Sketch)
        (ns : nat) (m n : R) (fc : nat) :
  let moving := INR (snd (tallies f s)) in
  let total := INR NUM_PARTICLES in
  movementAmp (snd (draw f s)) = P5.map moving 0 total 0 0.05 /\
  movementAmp (snd (draw f s)) = moving / total * 0.05 /\
  movementFilterFreq (snd (draw f s)) = P5.map moving 0 total 100 800 /\
  movementFilterFreq (snd (draw f s)) = 100 + moving / total * 700 /\
  movementAmp (soundGeneration ns 0 m n fc) = 0 /\
  movementAmp (soundGeneration ns NUM_PARTICLES m n fc) = 0.05 /\
  movementFilterFreq (soundGeneration ns 0 m n fc) = 100 /\
  movementFilterFreq (soundGeneration ns NUM_PARTICLES m n fc) = 800.
Proof.
  intros moving total. rewrite draw_sound.
  unfold soundGeneration. cbn [movementAmp movementFilterFreq].
  fold moving total. unfold P5.map.
  assert (Ht : total = 9000) by apply INR_NUM_PARTICLES.
  change (INR 0) with 0. fold total. rewrite Ht.
  repeat split; lra.
Qed.

(** C9: the overall settle amplitude is the linear map of the settled count
    from [0, NUM_PARTICLES] to [0, 0.4]; the first oscillator gets it, the
    other three get it divided by 1.5, each passed through
    [constrain(_, 0, 0.4)], which in a running sketch changes nothing;
    a settled count of 0 gives 0, a settled count of NUM_PARTICLES gives
    0.4, and the second voice never exceeds the first divided by 1.5. *)
Theorem settle_volume_mapping (rnd : nat -> R) (evs : list Event) (f : Frame)
        (ns nm : nat) (m n : R) (fc : nat) :
  let s := run rnd evs in
  let total := INR NUM_PARTICLES in
  let overall := P5.map (INR (fst (tallies f s))) 0 total 0 0.4 in
  let amps := List.map oscAmp (oscillators (snd (draw f s))) in
  overall = INR (fst (tallies f s)) / total * 0.4 /\
  0 <= overall <= 0.4 /\
  amps = [overall; overall / 1.5; overall / 1.5; overall / 1.5] /\
  Forall (fun a => 0 <= a <= 0.4) amps /\
  nth 1 amps 0 <= nth 0 amps 0 / 1.5 /\
  List.map oscAmp (oscillators (soundGeneration ns nm m n fc)) =
    (let o := P5.map (INR ns) 0 total 0 0.4 in
     [P5.constrain (o / 1) 0 0.4; P5.constrain (o / 1.5) 0 0.4;
      P5.constrain (o / 1.5) 0 0.4; P5.constrain (o / 1.5) 0 0.4]) /\
  List.map oscAmp (oscillators (soundGeneration 0 nm m n fc)) = [0; 0; 0; 0] /\
  List.map oscAmp (oscillators (soundGeneration NUM_PARTICLES nm m n fc)) =
    [0.4; 0.4 / 1.5; 0.4 / 1.5; 0.4 / 1.5].
Proof.
  intros s total overall amps.
  assert (Ht : total = 9000) by apply INR_NUM_PARTICLES.
  pose proof (tally_le_total rnd evs f) as Hb. fold s in Hb.
  assert (Ho : overall = INR (fst (tallies f s)) / total * 0.4).
  { unfold overall, P5.map. rewrite Ht. lra. }
  assert (Hr : 0 <= overall <= 0.4).
  { rewrite Ho, Ht. lra. }
  assert (Hgen : forall k,
             List.map oscAmp (oscillators (soundGeneration k nm m n fc)) =
             (let o := P5.map (INR k) 0 total 0 0.4 in
              [P5.constrain (o / 1) 0 0.4; P5.constrain (o / 1.5) 0 0.4;
               P5.constrain (o / 1.5) 0 0.4; P5.constrain (o / 1.5) 0 0.4])).
  { intros k. reflexivity. }
  assert (Ha : amps = [overall; overall / 1.5; overall / 1.5; overall / 1.5]).
  { unfold amps. rewrite draw_sound.
    change (List.map oscAmp _) with
      [P5.constrain (overall / 1) 0 0.4; P5.constrain (overall / 1.5) 0 0.4;
       P5.constrain (overall / 1.5) 0 0.4; P5.constrain (overall / 1.5) 0 0.4].
    rewrite !constrain_inside by lra.
    f_equal. lra. }
  split; [exact Ho|]. split; [exact Hr|]. split; [exact Ha|].
  split.
  { rewrite Ha. repeat (apply Forall_cons; [lra|]). apply Forall_nil. }
  split.
  { rewrite Ha. simpl. lra. }
  split; [apply Hgen|].
  split.
  - rewrite Hgen. cbv zeta. unfold P5.map. change (INR 0) with 0.
    replace ((0 - 0) / (total - 0) * (0.4 - 0) + 0) with 0 by (rewrite Ht; lra).
    rewrite !constrain_inside by lra. repeat (f_equal; try lra).
  - rewrite Hgen. cbv zeta. unfold P5.map. fold total.
    replace ((total - 0) / (total - 0) * (0.4 - 0) + 0) with 0.4 by (rewrite Ht; lra).
    rewrite !constrain_inside by lra. f_equal. lra.
Qed.

(** ** Gradient descent *)

(** The accumulated comparisons of the code are the four unit votes. *)
Lemma steerForce_votes (m n : R) (p : Particle) :
  let px := Vector.x (pos p) in
  let py := Vector.y (pos p) in
  let here := getChladniValue m n px py in
  steerForce m n here p =
  Vector.mk
    (toward (getChladniValue m n (px + 2) py) here -
     toward (getChladniValue m n (px - 2) py) here)
    (toward (getChladniValue m n px (py + 2)) here -
     toward (getChladniValue m n px (py - 2)) here).
Proof.
  intros px py here. unfold steerForce, toward, createVector, checkDistance.
  fold px py. cbv zeta.
  generalize (getChladniValue m n (px + 2) py) (getChladniValue m n (px - 2) py)
             (getChladniValue m n px (py + 2)) (getChladniValue m n px (py - 2)).
  intros r l d u.
  f_equal.
  - destruct (Rlt_dec r here), (Rgt_dec r here), (Rlt_dec here r),
             (Rlt_dec l here), (Rgt_dec l here), (Rlt_dec here l); lra.
  - destruct (Rlt_dec d here), (Rgt_dec d here), (Rlt_dec here d),
             (Rlt_dec u here), (Rgt_dec u here), (Rlt_dec here u); lra.
Qed.

(** C6: outside the scatter window, with the forming flag set and the field
    magnitude at the particle not below the tolerance, the steering vector
    is the sum of four unit votes (toward a lower neighbour at distance 2,
    away from a higher one, two votes per axis); a nonzero steering vector
    is normalized and scaled to magnitude 0.4, a zero one is replaced by a
    random unit direction scaled to 0.01; that force is added to the
    acceleration, the velocity is damped by 0.98, the particle is marked
    not settled and then integrated. *)
Theorem descending_branch (m n last now rand : R) (p : Particle) :
  ~ now < last + SCATTER_DURATION ->
  ~ getChladniValue m n (Vector.x (pos p)) (Vector.y (pos p)) < tolerance ->
  let px := Vector.x (pos p) in
  let py := Vector.y (pos p) in
  let here := getChladniValue m n px py in
  let steer :=
    Vector.mk
      (toward (getChladniValue m n (px + 2) py) here -
       toward (getChladniValue m n (px - 2) py) here)
      (toward (getChladniValue m n px (py + 2)) here -
       toward (getChladniValue m n px (py - 2)) here) in
  exists force : Vector.t,
    behave m n last now rand true p =
      update (mkParticle (pos p) (Vector.mult (vel p) 0.98)
                         (Vector.add (acc p) force) false) /\
    (steer <> Vector.mk 0 0 ->
     force = Vector.mult (Vector.normalize steer) 0.4 /\
     force = Vector.mult steer (0.4 / Vector.mag steer) /\
     Vector.mag force = 0.4) /\
    (steer = Vector.mk 0 0 ->
     force = Vector.mult (Vector.random2D rand) 0.01 /\
     Vector.mag force = 0.01) /\
    isSettled (behave m n last now rand true p) = false.
Proof.
  intros Hw Hc px py here steer.
  pose proof (behave_descend m n last now rand p Hw Hc) as Hb.
  cbv zeta in Hb. fold px py here in Hb.
  pose proof (steerForce_votes m n p) as Hs. cbv zeta in Hs.
  fold px py here steer in Hs. rewrite Hs in Hb.
  pose proof (VectorFacts.mag_nonneg steer) as Hn.
  destruct (Rgt_dec (Vector.mag steer) 0) as [Hpos | Hzero].
  - assert (Hnz : steer <> Vector.mk 0 0).
    { intros E. apply VectorFacts.mag_zero_iff in E. lra. }
    exists (Vector.mult (Vector.normalize steer) maxForce).
    split; [exact Hb|]. split; [|split].
    + intros _. unfold maxForce. split; [reflexivity|]. split.
      * unfold Vector.normalize.
        destruct (Req_dec_T (Vector.mag steer) 0); [lra|].
        unfold Vector.mult. simpl. f_equal; field; lra.
      * rewrite VectorFacts.mag_mult by lra.
        rewrite VectorFacts.normalize_mag by exact Hnz. lra.
    + intros E. contradiction.
    + rewrite Hb. reflexivity.
  - assert (Hz : steer = Vector.mk 0 0).
    { apply VectorFacts.mag_zero_iff. lra. }
    exists (Vector.mult (Vector.random2D rand) 0.01).
    split; [exact Hb|]. split; [|split].
    + intros E. contradiction.
    + intros _. split; [reflexivity|].
      rewrite VectorFacts.mag_mult by lra.
      rewrite VectorFacts.random2D_mag. lra.
    + rewrite Hb. reflexivity.
Qed.

(** At the middle of the left edge the field of the modes (1, 2) has
    magnitude 2. *)
Lemma getChladniValue_left_edge : getChladniValue 1 2 0 675 = 2.
Proof.
  unfold getChladniValue, P5.abs, P5.map, chladni, L_CHLADNI_SCALE,
         CANVAS_WIDTH, CANVAS_HEIGHT. cbv zeta.
  replace (2 * PI * ((0 - 0) / (1080 - 0) * (1080 / 3 - - (1080 / 3)) + - (1080 / 3))
           / (1080 / 3)) with (- (2 * PI)) by field.
  replace (1 * PI * ((675 - 0) / (1350 - 0) * (1080 / 3 - - (1080 / 3)) + - (1080 / 3))
           / (1080 / 3)) with 0 by field.
  replace (1 * PI * ((0 - 0) / (1080 - 0) * (1080 / 3 - - (1080 / 3)) + - (1080 / 3))
           / (1080 / 3)) with (- PI) by field.
  replace (2 * PI * ((675 - 0) / (1350 - 0) * (1080 / 3 - - (1080 / 3)) + - (1080 / 3))
           / (1080 / 3)) with 0 by field.
  rewrite !cos_neg, cos_2PI, cos_PI, cos_0.
  replace (1 * 1 - -1 * 1) with 2 by ring.
  apply Rabs_pos_eq. lra.
Qed.

Lemma descending_branch_witness :
  let p := mkParticle (Vector.mk 0 675) (Vector.mk 0 0) (Vector.mk 0 0) false in
  (~ 600 < 0 + SCATTER_DURATION /\
   ~ getChladniValue 1 2 (Vector.x (pos p)) (Vector.y (pos p)) < tolerance) /\
  isSettled (behave 1 2 0 600 0 true p) = false.
Proof.
  intros p.
  assert (H1 : ~ 600 < 0 + SCATTER_DURATION) by (unfold SCATTER_DURATION; lra).
  assert (H2 : ~ getChladniValue 1 2 (Vector.x (pos p)) (Vector.y (pos p)) < tolerance).
  { simpl. rewrite getChladniValue_left_edge. unfold tolerance. lra. }
  split; [split; assumption|].
  destruct (descending_branch 1 2 0 600 0 p H1 H2) as (force & _ & _ & _ & H).
  exact H.
Defined.

(** ** Scatter *)

Lemma behave_forming_settled (m n last now rand : R) (p : Particle) :
  ~ now < last + SCATTER_DURATION ->
  (isSettled (behave m n last now rand true p) = true <->
   getChladniValue m n (Vector.x (pos p)) (Vector.y (pos p)) < tolerance).
Proof.
  intros Hw. split.
  - intros H. apply behave_settled_inv in H.
    destruct H as [_ [[_ H] | [H _]]]; [exact H | discriminate].
  - intros H. rewrite behave_settle by assumption. reflexivity.
Qed.

(** C1 as stated fails: the key S is pressed at 1000 ms and one frame at
    1100 ms scatters the particles; in the frame at 1600 ms, after the
    window, the first particle only takes the integration step and stays
    unsettled, although the settle logic would have marked it settled. *)
Lemma scatter_revert_counterexample :
  let s1 := run (fun _ => 0)
                [KeyPressed "s" 1000; Draw (mkFrame (fun _ => 1100) (fun _ => 0) 1)] in
  let f := mkFrame (fun _ => 1600) (fun _ => 0) 2 in
  exists p p' : Particle,
    nth_error (particles s1) 0 = Some p /\
    nth_error (particles (fst (draw f s1))) 0 = Some p' /\
    lastScatterTime s1 = 1000 /\
    p' = update p /\
    isSettled p' = false /\
    isSettled (behave (stableM s1) (stableN s1) (lastScatterTime s1)
                      1600 0 true p) = true.
Proof.
  intros s1 f.
  set (s0 := setup (fun _ => 0)).
  set (sk := keyPressed "s" 1000 s0).
  set (f1 := mkFrame (fun _ => 1100) (fun _ => 0) 1).
  assert (Es1 : s1 = fst (draw f1 sk)) by reflexivity.
  destruct (keyPressed_scatter "s" 1000 s0 (or_introl eq_refl))
    as (KL & KF & KM & KN & KP). fold sk in KL, KF, KM, KN, KP.
  destruct (draw_globals sk f1) as (DM & DN & DF & DL).
  rewrite <- Es1 in DM, DN, DF, DL.
  rewrite KM in DM. rewrite KN in DN. rewrite KF in DF. rewrite KL in DL.
  assert (H0 : nth_error (particles sk) 0 = Some (newParticle 0 0)).
  { rewrite KP. apply (setup_nth (fun _ => 0) 0 zero_lt_NUM_PARTICLES). }
  set (p := behaveAt sk f1 0 (newParticle 0 0)).
  assert (Hp : nth_error (particles s1) 0 = Some p).
  { rewrite Es1, draw_nth, H0. reflexivity. }
  assert (Hps : isSettled p = false).
  { unfold p, behaveAt. rewrite behave_scatter; [reflexivity|].
    rewrite KL. unfold f1, SCATTER_DURATION. simpl. lra. }
  assert (Hw : ~ 1600 < 1000 + SCATTER_DURATION).
  { unfold SCATTER_DURATION. lra. }
  exists p, (update p).
  split; [exact Hp|]. split.
  { rewrite draw_nth, Hp. unfold behaveAt. rewrite DM, DN, DF, DL. simpl.
    now rewrite behave_coast. }
  split; [exact DL|]. split; [reflexivity|]. split.
  { rewrite update_isSettled. exact Hps. }
  rewrite DM, DN, DL. apply behave_forming_settled; [exact Hw|].
  rewrite getChladniValue_equal_modes. unfold tolerance. lra.
Qed.

(** C1, amended: pressing S at [t0] resets the modes to 1, clears the
    forming flag and records [t0].  In a frame where a particle's clock
    reading is below [t0 + 500] the particle takes the scattering branch:
    a random impulse of magnitude 0.8 is added to its acceleration, its
    velocity is damped by 0.9, it is integrated and marked not settled,
    whatever the field, the modes and the flag; if that holds for all
    particles of the frame, all are unsettled after it.  In a frame at or
    after [t0 + 500] no impulse is applied: with the flag still cleared the
    particle only takes the integration step, and once a slider input has
    set the flag again the settle and descent logic decides its flag. *)
Theorem scatter_window (s : Sketch) (key : string) (t0 : R) (f : Frame)
        (v : Z) (i : nat) (p : Particle) :
  key = "s"%string \/ key = "S"%string ->
  let s1 := keyPressed key t0 s in
  nth_error (particles s1) i = Some p ->
  (lastScatterTime s1 = t0 /\ patternShouldForm s1 = false /\
   stableM s1 = 1 /\ stableN s1 = 1 /\ particles s1 = particles s) /\
  (millis f i < t0 + 500 ->
   let impulse := Vector.mult (Vector.random2D (random f i)) 0.8 in
   let p' := set_isSettled false
               (update (mkParticle (pos p) (Vector.mult (vel p) 0.9)
                                   (Vector.add (acc p) impulse) (isSettled p))) in
   nth_error (particles (fst (draw f s1))) i = Some p' /\
   Vector.mag impulse = 0.8 /\
   isSettled p' = false /\
   forall (m n : R) (forming : bool),
     behave m n t0 (millis f i) (random f i) forming p = p') /\
  ((forall j, millis f j < t0 + 500) ->
   Forall (fun q => isSettled q = false) (particles (fst (draw f s1)))) /\
  (~ millis f i < t0 + 500 ->
   nth_error (particles (fst (draw f s1))) i = Some (update p) /\
   patternShouldForm (fst (draw f s1)) = false) /\
  (~ millis f i < t0 + 500 ->
   forall s2, s2 = sliderMInput v s1 \/ s2 = sliderNInput v s1 ->
   exists p' : Particle,
     nth_error (particles (fst (draw f s2))) i = Some p' /\
     p' = behave (stableM s2) (stableN s2) t0 (millis f i) (random f i) true p /\
     (isSettled p' = true <->
      getChladniValue (stableM s2) (stableN s2)
                      (Vector.x (pos p)) (Vector.y (pos p)) < tolerance)).
Proof.
  intros Hk s1 Hp.
  destruct (keyPressed_scatter key t0 s Hk) as (KL & KF & KM & KN & KP).
  fold s1 in KL, KF, KM, KN, KP.
  split; [auto|]. split; [|split; [|split]].
  - intros Hw impulse p'. split; [|split; [|split]].
    + rewrite draw_nth, Hp. unfold behaveAt. rewrite KL. simpl.
      now rewrite behave_scatter.
    + unfold impulse. rewrite VectorFacts.mag_mult by lra.
      rewrite VectorFacts.random2D_mag. lra.
    + reflexivity.
    + intros m n forming. now rewrite behave_scatter.
  - intros Hall. rewrite draw_particles. apply drawParticles_Forall.
    intros j q. unfold behaveAt. rewrite KL.
    rewrite behave_scatter by apply Hall. reflexivity.
  - intros Hw. split; [|destruct (draw_globals s1 f) as (_ & _ & -> & _); exact KF].
    rewrite draw_nth, Hp. unfold behaveAt. rewrite KL, KF. simpl.
    now rewrite behave_coast.
  - intros Hw s2 Hs2.
    assert (G : particles s2 = particles s1 /\ patternShouldForm s2 = true /\
                lastScatterTime s2 = t0).
    { destruct Hs2 as [-> | ->].
      - destruct (sliderMInput_globals v s1) as (_ & _ & EP & EF & EL).
        rewrite EL, KL. auto.
      - destruct (sliderNInput_globals v s1) as (_ & _ & EP & EF & EL).
        rewrite EL, KL. auto. }
    destruct G as (GP & GF & GL).
    eexists. split; [|split; [reflexivity|]].
    + rewrite draw_nth, GP, Hp. unfold behaveAt. rewrite GF, GL. reflexivity.
    + apply behave_forming_settled. exact Hw.
Qed.

Lemma scatter_window_witness :
  let s := setup (fun _ => 0) in
  let f := mkFrame (fun _ => 1100) (fun _ => 0) 1 in
  let s1 := keyPressed "s" 1000 s in
  let p := newParticle 0 0 in
  (("s"%string = "s"%string \/ "s"%string = "S"%string) /\
   nth_error (particles s1) 0 = Some p) /\
  lastScatterTime s1 = 1000 /\
  Forall (fun q => isSettled q = false) (particles (fst (draw f s1))).
Proof.
  intros s f s1 p.
  assert (H1 : "s"%string = "s"%string \/ "s"%string = "S"%string)
    by (left; reflexivity).
  assert (H2 : nth_error (particles s1) 0 = Some p).
  { destruct (keyPressed_scatter "s" 1000 s H1) as (_ & _ & _ & _ & EP).
    fold s1 in EP. rewrite EP.
    apply (setup_nth (fun _ => 0) 0 zero_lt_NUM_PARTICLES). }
  split; [split; assumption|].
  destruct (scatter_window s "s" 1000 f 3 0 p H1 H2)
    as ((EL & _) & _ & Hall & _).
  split; [exact EL|].
  apply Hall. intros j. simpl. lra.
Defined.

(** ** Coasting *)

Lemma update_integrated (p : Particle) :
  integrated p ->
  vel (update p) = vel p /\ acc (update p) = acc p /\ integrated (update p).
Proof.
  intros [Ha Hv].
  assert (E : vel (update p) = vel p).
  { rewrite update_vel, Ha.
    replace (Vector.add (vel p) (Vector.mk 0 0)) with (vel p).
    - now apply VectorFacts.limit_below.
    - destruct (vel p) as [a b]. unfold Vector.add. simpl. f_equal; ring. }
  split; [exact E|]. split.
  - now rewrite update_acc, Ha.
  - split; [apply update_acc | apply update_speed].
Qed.

Lemma iter_update_integrated (k : nat) (p : Particle) :
  integrated p ->
  vel (Nat.iter k update p) = vel p /\
  acc (Nat.iter k update p) = acc p /\
  isSettled (Nat.iter k update p) = isSettled p /\
  integrated (Nat.iter k update p).
Proof.
  intros Hp. induction k as [|k (Hv & Ha & Hs & Hi)]; [simpl; auto|].
  change (Nat.iter (S k) update p) with (update (Nat.iter k update p)).
  destruct (update_integrated _ Hi) as (Ev & Ea & Ei).
  rewrite Ev, Ea, update_isSettled. auto.
Qed.

Lemma coast_frames (i : nat) (fs : list Frame) :
  forall (s : Sketch) (p : Particle),
    patternShouldForm s = false ->
    Forall (fun f => ~ millis f i < lastScatterTime s + SCATTER_DURATION) fs ->
    nth_error (particles s) i = Some p ->
    let s' := fold_left step (List.map Draw fs) s in
    nth_error (particles s') i = Some (Nat.iter (List.length fs) update p) /\
    patternShouldForm s' = false /\
    lastScatterTime s' = lastScatterTime s.
Proof.
  induction fs as [|f fs IH]; intros s p Hf Hall Hp; [simpl; auto|].
  inversion Hall as [|? ? Hw Hrest]; subst.
  destruct (draw_globals s f) as (_ & _ & DF & DL).
  cbn [List.map fold_left step List.length].
  rewrite Nat.iter_succ_r.
  destruct (IH (fst (draw f s)) (update p)) as (E1 & E2 & E3).
  - now rewrite DF.
  - now rewrite DL.
  - rewrite draw_nth, Hp. unfold behaveAt. rewrite Hf. simpl.
    now rewrite behave_coast.
  - rewrite E3, DL. auto.
Qed.

(** C10: outside the scatter window and with the forming flag cleared,
    [behave] is the integration step alone, on any particle, and leaves the
    settled flag as it was.  In a running sketch a particle enters the frame
    with no pending acceleration and a speed within the limit, so over any
    number of such frames its acceleration, velocity and settled flag stay
    as they were while its position is integrated; the flag stays cleared
    through those frames, and a slider input sets it again. *)
Theorem coasting (rnd : nat -> R) (evs : list Event) (fs : list Frame)
        (i : nat) (p q : Particle) (m n now rand : R) (v : Z) :
  let s := run rnd evs in
  patternShouldForm s = false ->
  Forall (fun f => ~ millis f i < lastScatterTime s + SCATTER_DURATION) fs ->
  nth_error (particles s) i = Some p ->
  let s' := fold_left step (List.map Draw fs) s in
  let p' := Nat.iter (List.length fs) update p in
  (~ now < lastScatterTime s + SCATTER_DURATION ->
   behave m n (lastScatterTime s) now rand false q = update q /\
   isSettled (update q) = isSettled q) /\
  nth_error (particles s') i = Some p' /\
  isSettled p' = isSettled p /\
  acc p' = acc p /\
  acc p = Vector.mk 0 0 /\
  vel p' = vel p /\
  pos (update p) =
    Vector.mk (wrap CANVAS_WIDTH (Vector.x (pos p) + Vector.x (vel p)))
              (wrap CANVAS_HEIGHT (Vector.y (pos p) + Vector.y (vel p))) /\
  patternShouldForm s' = false /\
  patternShouldForm (sliderMInput v s') = true /\
  patternShouldForm (sliderNInput v s') = true.
Proof.
  intros s Hf Hall Hp s' p'.
  assert (Hi : integrated p).
  { pose proof (inv_particles _ (run_invariant rnd evs)) as HF. fold s in HF.
    rewrite Forall_forall in HF. apply HF. eapply nth_error_In, Hp. }
  destruct (coast_frames i fs s p Hf Hall Hp) as (E1 & E2 & _).
  destruct (iter_update_integrated (List.length fs) p Hi) as (Ev & Ea & Es & _).
  destruct (update_integrated p Hi) as (Uv & _ & _).
  split.
  { intros Hw. split; [now apply behave_coast | reflexivity]. }
  split; [exact E1|]. split; [exact Es|]. split; [exact Ea|].
  split; [apply Hi|]. split; [exact Ev|]. split.
  { change (pos (update p)) with
      (Vector.mk (wrap CANVAS_WIDTH (Vector.x (pos p) + Vector.x (vel (update p))))
                 (wrap CANVAS_HEIGHT (Vector.y (pos p) + Vector.y (vel (update p))))).
    now rewrite Uv. }
  split; [exact E2|].
  split; [apply sliderMInput_globals | apply sliderNInput_globals].
Qed.

Lemma coasting_witness :
  let s := run (fun _ => 0) [KeyPressed "s" 1000] in
  let fs := [mkFrame (fun _ => 1600) (fun _ => 0) 1;
             mkFrame (fun _ => 1700) (fun _ => 0) 2] in
  let p := newParticle 0 0 in
  (patternShouldForm s = false /\
   Forall (fun f => ~ millis f 0 < lastScatterTime s + SCATTER_DURATION) fs /\
   nth_error (particles s) 0 = Some p) /\
  nth_error (particles (fold_left step (List.map Draw fs) s)) 0 =
    Some (update (update p)).
Proof.
  intros s fs p.
  destruct (keyPressed_scatter "s" 1000 (setup (fun _ => 0)) (or_introl eq_refl))
    as (KL & KF & _ & _ & KP).
  change (keyPressed "s" 1000 (setup (fun _ => 0))) with s in KL, KF, KP.
  assert (H1 : patternShouldForm s = false) by exact KF.
  assert (H2 : Forall (fun f => ~ millis f 0 < lastScatterTime s + SCATTER_DURATION) fs).
  { rewrite KL. unfold SCATTER_DURATION.
    repeat (apply Forall_cons; [simpl; lra|]). apply Forall_nil. }
  assert (H3 : nth_error (particles s) 0 = Some p).
  { rewrite KP. apply (setup_nth (fun _ => 0) 0 zero_lt_NUM_PARTICLES). }
  split; [auto|].
  destruct (coasting (fun _ => 0) [KeyPressed "s" 1000] fs 0 p p 1 1 1600 0 1 H1 H2 H3)
    as (_ & E & _).
  exact E.
Defined.

(** * Further properties *)

(** ** The field *)

Lemma map_mirror (c bound l : R) :
  bound <> 0 ->
  P5.map (bound - c) 0 bound (- l) l = - P5.map c 0 bound (- l) l.
Proof. intros Hb. unfold P5.map. field. lra. Qed.

Lemma chladni_even_x (x y m n : R) : chladni (- x) y m n = chladni x y m n.
Proof.
  unfold chladni. cbv zeta.
  replace (n * PI * - x / L_CHLADNI_SCALE) with (- (n * PI * x / L_CHLADNI_SCALE))
    by (unfold L_CHLADNI_SCALE, CANVAS_WIDTH; field).
  replace (m * PI * - x / L_CHLADNI_SCALE) with (- (m * PI * x / L_CHLADNI_SCALE))
    by (unfold L_CHLADNI_SCALE, CANVAS_WIDTH; field).
  now rewrite !cos_neg.
Qed.

Lemma chladni_even_y (x y m n : R) : chladni x (- y) m n = chladni x y m n.
Proof.
  unfold chladni. cbv zeta.
  replace (n * PI * - y / L_CHLADNI_SCALE) with (- (n * PI * y / L_CHLADNI_SCALE))
    by (unfold L_CHLADNI_SCALE, CANVAS_WIDTH; field).
  replace (m * PI * - y / L_CHLADNI_SCALE) with (- (m * PI * y / L_CHLADNI_SCALE))
    by (unfold L_CHLADNI_SCALE, CANVAS_WIDTH; field).
  now rewrite !cos_neg.
Qed.

Lemma chladni_transpose (x y m n : R) : chladni y x m n = - chladni x y m n.
Proof. unfold chladni. cbv zeta. ring. Qed.

Lemma cos_product_bound (a b : R) : -1 <= cos a * cos b <= 1.
Proof.
  pose proof (COS_bound a) as [Ha1 Ha2]. pose proof (COS_bound b) as [Hb1 Hb2].
  split; nra.
Qed.

(** X1: the magnitude [getChladniValue] returns lies between 0 and 2, at
    every point and for all modes. *)
Theorem getChladniValue_range (m n x y : R) :
  0 <= getChladniValue m n x y <= 2.
Proof.
  split; [apply getChladniValue_nonneg|].
  unfold getChladniValue, P5.abs, chladni. cbv zeta.
  set (sx := P5.map x 0 CANVAS_WIDTH (- L_CHLADNI_SCALE) L_CHLADNI_SCALE).
  set (sy := P5.map y 0 CANVAS_HEIGHT (- L_CHLADNI_SCALE) L_CHLADNI_SCALE).
  pose proof (cos_product_bound (n * PI * sx / L_CHLADNI_SCALE)
                                (m * PI * sy / L_CHLADNI_SCALE)) as H1.
  pose proof (cos_product_bound (m * PI * sx / L_CHLADNI_SCALE)
                                (n * PI * sy / L_CHLADNI_SCALE)) as H2.
  apply Rabs_le. lra.
Qed.

(** X2: the magnitude is unchanged by mirroring the point in the vertical
    or the horizontal centre line of the canvas, and by swapping the two
    modes. *)
Theorem getChladniValue_symmetries (m n x y : R) :
  getChladniValue m n (CANVAS_WIDTH - x) y = getChladniValue m n x y /\
  getChladniValue m n x (CANVAS_HEIGHT - y) = getChladniValue m n x y /\
  getChladniValue n m x y = getChladniValue m n x y.
Proof.
  unfold getChladniValue, P5.abs. cbv zeta. split; [|split].
  - rewrite map_mirror by (unfold CANVAS_WIDTH; lra).
    now rewrite chladni_even_x.
  - rewrite map_mirror by (unfold CANVAS_HEIGHT; lra).
    now rewrite chladni_even_y.
  - replace (chladni _ _ n m) with
      (- chladni (P5.map x 0 CANVAS_WIDTH (- L_CHLADNI_SCALE) L_CHLADNI_SCALE)
                 (P5.map y 0 CANVAS_HEIGHT (- L_CHLADNI_SCALE) L_CHLADNI_SCALE) m n)
      by (unfold chladni; cbv zeta; ring).
    apply Rabs_Ropp.
Qed.

Lemma getChladniValue_diagonal (m n t : R) :
  getChladniValue m n (t * CANVAS_WIDTH) (t * CANVAS_HEIGHT) = 0.
Proof.
  unfold getChladniValue, P5.abs. cbv zeta.
  replace (P5.map (t * CANVAS_HEIGHT) 0 CANVAS_HEIGHT (- L_CHLADNI_SCALE) L_CHLADNI_SCALE)
    with (P5.map (t * CANVAS_WIDTH) 0 CANVAS_WIDTH (- L_CHLADNI_SCALE) L_CHLADNI_SCALE)
    by (unfold P5.map, CANVAS_WIDTH, CANVAS_HEIGHT; field).
  rewrite chladni_transpose.
  set (c := chladni _ _ m n).
  assert (E : c = - c) by apply chladni_transpose.
  assert (c = 0) by lra. replace (- c) with 0 by lra. apply Rabs_R0.
Qed.

Lemma getChladniValue_antidiagonal (m n t : R) :
  getChladniValue m n (CANVAS_WIDTH - t * CANVAS_WIDTH) (t * CANVAS_HEIGHT) = 0.
Proof.
  unfold getChladniValue, P5.abs. cbv zeta.
  rewrite map_mirror by (unfold CANVAS_WIDTH; lra).
  rewrite chladni_even_x.
  apply (getChladniValue_diagonal m n t).
Qed.

(** X3: both diagonals of the canvas are nodal lines of every mode pair: a
    particle that [behave] meets on one of them, outside the scatter window
    and with the forming flag set, leaves the call settled. *)
Theorem diagonals_are_nodal (m n last now rand t : R) (p : Particle) :
  ~ now < last + SCATTER_DURATION ->
  pos p = Vector.mk (t * CANVAS_WIDTH) (t * CANVAS_HEIGHT) \/
  pos p = Vector.mk (CANVAS_WIDTH - t * CANVAS_WIDTH) (t * CANVAS_HEIGHT) ->
  getChladniValue m n (Vector.x (pos p)) (Vector.y (pos p)) = 0 /\
  isSettled (behave m n last now rand true p) = true /\
  behave m n last now rand true p = settleStep p.
Proof.
  intros Hw Hpos.
  assert (E : getChladniValue m n (Vector.x (pos p)) (Vector.y (pos p)) = 0).
  { destruct Hpos as [-> | ->]; simpl.
    - apply getChladniValue_diagonal.
    - apply getChladniValue_antidiagonal. }
  assert (Hb : behave m n last now rand true p = settleStep p).
  { apply behave_settle; [exact Hw|]. rewrite E. unfold tolerance. lra. }
  split; [exact E|]. split; [|exact Hb]. rewrite Hb. reflexivity.
Qed.

Lemma diagonals_are_nodal_witness :
  let p := mkParticle (Vector.mk (0.25 * CANVAS_WIDTH) (0.25 * CANVAS_HEIGHT))
                      (Vector.mk 1 0) (Vector.mk 0 0) false in
  (~ 600 < 0 + SCATTER_DURATION /\
   (pos p = Vector.mk (0.25 * CANVAS_WIDTH) (0.25 * CANVAS_HEIGHT) \/
    pos p = Vector.mk (CANVAS_WIDTH - 0.25 * CANVAS_WIDTH) (0.25 * CANVAS_HEIGHT))) /\
  isSettled (behave 3 5 0 600 0 true p) = true.
Proof.
  intros p.
  assert (H1 : ~ 600 < 0 + SCATTER_DURATION) by (unfold SCATTER_DURATION; lra).
  assert (H2 : pos p = Vector.mk (0.25 * CANVAS_WIDTH) (0.25 * CANVAS_HEIGHT) \/
               pos p = Vector.mk (CANVAS_WIDTH - 0.25 * CANVAS_WIDTH) (0.25 * CANVAS_HEIGHT))
    by (left; reflexivity).
  split; [split; assumption|].
  destruct (diagonals_are_nodal 3 5 0 600 0 0.25 p H1 H2) as (_ & H & _).
  exact H.
Defined.

(** ** Motion *)

Lemma wrap_range (bound c : R) : 0 <= bound -> 0 <= wrap bound c <= bound.
Proof.
  intros Hb. rewrite wrap_cases.
  destruct (Rlt_dec c 0); [lra|].
  destruct (Rgt_dec c bound); lra.
Qed.

Lemma update_inCanvas (p : Particle) : inCanvas (update p).
Proof.
  unfold inCanvas, update. cbn [pos set_pos Vector.x Vector.y]. split.
  - apply wrap_range. unfold CANVAS_WIDTH. lra.
  - apply wrap_range. unfold CANVAS_HEIGHT. lra.
Qed.

Lemma behave_inCanvas (m n last now rand : R) (forming : bool) (p : Particle) :
  inCanvas (behave m n last now rand forming p).
Proof.
  destruct (behave_ends_in_update m n last now rand forming p) as (q & b & ->).
  apply (update_inCanvas q).
Qed.

Lemma draw_inCanvas (f : Frame) (s : Sketch) :
  Forall inCanvas (particles (fst (draw f s))).
Proof.
  rewrite draw_particles. apply drawParticles_Forall.
  intros j p. apply behave_inCanvas.
Qed.

Lemma setup_inCanvas (rnd : nat -> R) :
  (forall k, 0 <= rnd k <= 1) -> Forall inCanvas (particles (setup rnd)).
Proof.
  intros Hr. unfold setup. cbn [particles]. apply Forall_forall. intros p Hp.
  apply in_map_iff in Hp. destruct Hp as (i & <- & _).
  pose proof (Hr (2 * i)%nat) as H1. pose proof (Hr (2 * i + 1)%nat) as H2.
  unfold inCanvas, newParticle, createVector, CANVAS_WIDTH, CANVAS_HEIGHT.
  cbn [pos Vector.x Vector.y]. split; nra.
Qed.

(** X4: whatever the particle, [update] leaves it inside the canvas, so
    every frame leaves all particles inside the canvas; with constructor
    samples in [0, 1] the particles of a running sketch are inside the
    canvas at every moment. *)
Theorem particles_stay_in_canvas (rnd : nat -> R) (evs : list Event)
        (f : Frame) (s : Sketch) (p : Particle) :
  (forall k, 0 <= rnd k <= 1) ->
  Forall inCanvas (particles (run rnd evs)) /\
  Forall inCanvas (particles (fst (draw f s))) /\
  inCanvas (update p).
Proof.
  intros Hr. split; [|split; [apply draw_inCanvas | apply update_inCanvas]].
  induction evs as [|e evs IH] using rev_ind.
  - apply setup_inCanvas, Hr.
  - rewrite run_app. cbn [fold_left].
    destruct (isDraw e) eqn:Ed.
    + destruct e; try discriminate. apply draw_inCanvas.
    + rewrite step_particles by exact Ed. exact IH.
Qed.

Lemma particles_stay_in_canvas_witness :
  let f := mkFrame (fun _ => 100) (fun _ => 0.5) 1 in
  (forall k : nat, 0 <= (fun _ : nat => 0.5) k <= 1) /\
  Forall inCanvas (particles (run (fun _ => 0.5) [Draw f; KeyPressed "s" 700])).
Proof.
  intros f.
  assert (H : forall k : nat, 0 <= (fun _ : nat => 0.5) k <= 1) by (intros k; lra).
  split; [exact H|].
  apply (particles_stay_in_canvas (fun _ => 0.5) [Draw f; KeyPressed "s" 700]
           f (setup (fun _ => 0.5)) (newParticle 0.5 0.5) H).
Defined.

(** X5: at every moment of a running sketch every particle has no pending
    acceleration and a speed of at most 2.5. *)
Theorem speed_limit_invariant (rnd : nat -> R) (evs : list Event) :
  Forall (fun p => acc p = Vector.mk 0 0 /\ Vector.mag (vel p) <= 2.5)
         (particles (run rnd evs)).
Proof.
  pose proof (inv_particles _ (run_invariant rnd evs)) as H.
  eapply Forall_impl; [|exact H].
  intros p [Ha Hv]. split; [exact Ha|].
  apply (VectorFacts.mag_le_iff (vel p) 2.5); [lra | exact Hv].
Qed.

(** X6: when the integrated position stays inside the canvas, [update]
    moves the particle by exactly its new velocity, that is by a distance
    of at most 2.5. *)
Theorem update_displacement (p : Particle) :
  let q := Vector.add (pos p) (vel (update p)) in
  0 <= Vector.x q <= CANVAS_WIDTH ->
  0 <= Vector.y q <= CANVAS_HEIGHT ->
  pos (update p) = q /\
  Vector.mag (Vector.mk (Vector.x (pos (update p)) - Vector.x (pos p))
                        (Vector.y (pos (update p)) - Vector.y (pos p))) <= 2.5.
Proof.
  intros q Hx Hy.
  assert (E : pos (update p) = q).
  { change (pos (update p)) with
      (Vector.mk (wrap CANVAS_WIDTH (Vector.x q)) (wrap CANVAS_HEIGHT (Vector.y q))).
    rewrite !wrap_cases.
    destruct (Rlt_dec (Vector.x q) 0); [lra|].
    destruct (Rgt_dec (Vector.x q) CANVAS_WIDTH); [lra|].
    destruct (Rlt_dec (Vector.y q) 0); [lra|].
    destruct (Rgt_dec (Vector.y q) CANVAS_HEIGHT); [lra|].
    apply VectorFacts.eta. }
  split; [exact E|]. rewrite E. unfold q, Vector.add. cbn [Vector.x Vector.y].
  replace (Vector.x (pos p) + Vector.x (vel (update p)) - Vector.x (pos p))
    with (Vector.x (vel (update p))) by ring.
  replace (Vector.y (pos p) + Vector.y (vel (update p)) - Vector.y (pos p))
    with (Vector.y (vel (update p))) by ring.
  rewrite VectorFacts.eta.
  apply (VectorFacts.mag_le_iff _ 2.5); [lra|]. apply update_speed.
Qed.

Lemma update_displacement_witness :
  let p := mkParticle (Vector.mk 10 20) (Vector.mk 3 4) (Vector.mk 0 0) false in
  let q := Vector.add (pos p) (vel (update p)) in
  (0 <= Vector.x q <= CANVAS_WIDTH /\ 0 <= Vector.y q <= CANVAS_HEIGHT) /\
  pos (update p) = q.
Proof.
  intros p q.
  assert (Ev : vel (update p) = Vector.mk 1.5 2).
  { rewrite update_vel.
    assert (Hm : Vector.mag (Vector.mk 3 4) = 5).
    { unfold Vector.mag, Vector.magSq. simpl.
      replace (3 * 3 + 4 * 4) with (5 * 5) by ring. apply sqrt_square. lra. }
    assert (Hgt : Vector.magSq (Vector.add (vel p) (acc p)) > maxSpeed * maxSpeed).
    { unfold Vector.magSq, maxSpeed. simpl. lra. }
    destruct (VectorFacts.limit_above _ maxSpeed Hgt) as [-> _].
    replace (Vector.add (vel p) (acc p)) with (Vector.mk 3 4)
      by (unfold Vector.add; simpl; f_equal; ring).
    rewrite Hm. unfold Vector.mult, maxSpeed. simpl. f_equal; lra. }
  assert (Hx : 0 <= Vector.x q <= CANVAS_WIDTH).
  { unfold q. rewrite Ev. unfold CANVAS_WIDTH. simpl. lra. }
  assert (Hy : 0 <= Vector.y q <= CANVAS_HEIGHT).
  { unfold q. rewrite Ev. unfold CANVAS_HEIGHT. simpl. lra. }
  split; [split; assumption|].
  exact (proj1 (update_displacement p Hx Hy)).
Defined.

(** ** Settling *)

Lemma settleStep_vel (p : Particle) :
  Vector.magSq (vel p) <= maxSpeed * maxSpeed ->
  vel (settleStep p) = Vector.mult (vel p) 0.8.
Proof.
  intros Hv. unfold settleStep. rewrite update_vel.
  cbn [vel acc set_isSettled set_acc set_vel].
  replace (Vector.add (Vector.mult (vel p) 0.8) (Vector.mult (acc p) 0))
    with (Vector.mult (vel p) 0.8)
    by (unfold Vector.add, Vector.mult; simpl; f_equal; ring).
  apply VectorFacts.limit_below.
  unfold Vector.magSq, Vector.mult in *. simpl. nra.
Qed.

Lemma iter_settleStep (k : nat) (p : Particle) :
  Vector.magSq (vel p) <= maxSpeed * maxSpeed ->
  vel (Nat.iter k settleStep p) = Vector.mult (vel p) (0.8 ^ k) /\
  Vector.magSq (vel (Nat.iter k settleStep p)) <= maxSpeed * maxSpeed.
Proof.
  intros Hv. induction k as [|k [IH1 IH2]].
  - simpl. split; [|exact Hv].
    destruct (vel p) as [a b]. unfold Vector.mult. simpl. f_equal; ring.
  - change (Nat.iter (S k) settleStep p) with (settleStep (Nat.iter k settleStep p)).
    split; [|apply update_speed].
    rewrite settleStep_vel by exact IH2. rewrite IH1.
    unfold Vector.mult. simpl. f_equal; ring.
Qed.

Lemma settle_frames (i : nat) (fs : list Frame) :
  forall (s : Sketch) (p : Particle),
    stableM s = stableN s ->
    patternShouldForm s = true ->
    Forall (fun f => ~ millis f i < lastScatterTime s + SCATTER_DURATION) fs ->
    nth_error (particles s) i = Some p ->
    nth_error (particles (fold_left step (List.map Draw fs) s)) i =
    Some (Nat.iter (List.length fs) settleStep p).
Proof.
  induction fs as [|f fs IH]; intros s p Hm Hf Hall Hp; [exact Hp|].
  inversion Hall as [|? ? Hw Hrest]; subst.
  destruct (draw_globals s f) as (DM & DN & DF & DL).
  cbn [List.map fold_left step List.length].
  rewrite Nat.iter_succ_r.
  apply IH.
  - now rewrite DM, DN.
  - now rewrite DF.
  - now rewrite DL.
  - rewrite draw_nth, Hp. unfold behaveAt. rewrite Hf, Hm. simpl.
    rewrite behave_settle; [reflexivity | exact Hw |].
    rewrite getChladniValue_equal_modes. unfold tolerance. lra.
Qed.

(** X7: while the two modes are equal the field vanishes everywhere, so in
    frames outside the scatter window with the forming flag set a particle
    of a running sketch takes the settle branch every time: after k such
    frames its velocity is 0.8^k times what it was, and if k > 0 it is
    settled with no pending acceleration. *)
Theorem equal_modes_settle (rnd : nat -> R) (evs : list Event)
        (fs : list Frame) (i : nat) (p : Particle) :
  let s := run rnd evs in
  stableM s = stableN s ->
  patternShouldForm s = true ->
  Forall (fun f => ~ millis f i < lastScatterTime s + SCATTER_DURATION) fs ->
  nth_error (particles s) i = Some p ->
  exists p' : Particle,
    nth_error (particles (fold_left step (List.map Draw fs) s)) i = Some p' /\
    vel p' = Vector.mult (vel p) (0.8 ^ List.length fs) /\
    Vector.mag (vel p') = Vector.mag (vel p) * 0.8 ^ List.length fs /\
    (isSettled p' = if (0 <? List.length fs)%nat then true else isSettled p).
Proof.
  intros s Hm Hf Hall Hp.
  assert (Hi : integrated p).
  { pose proof (inv_particles _ (run_invariant rnd evs)) as HF. fold s in HF.
    rewrite Forall_forall in HF. apply HF. eapply nth_error_In, Hp. }
  destruct Hi as [_ Hv].
  exists (Nat.iter (List.length fs) settleStep p).
  split; [now apply settle_frames|].
  destruct (iter_settleStep (List.length fs) p Hv) as [Ev _].
  split; [exact Ev|]. split.
  - rewrite Ev. apply VectorFacts.mag_mult. apply pow_le. lra.
  - destruct (List.length fs); reflexivity.
Qed.

Lemma equal_modes_settle_witness :
  let s := run (fun _ => 0) [] in
  let fs := [mkFrame (fun _ => 600) (fun _ => 0) 1;
             mkFrame (fun _ => 700) (fun _ => 0) 2] in
  let p := newParticle 0 0 in
  (stableM s = stableN s /\ patternShouldForm s = true /\
   Forall (fun f => ~ millis f 0 < lastScatterTime s + SCATTER_DURATION) fs /\
   nth_error (particles s) 0 = Some p) /\
  exists p' : Particle,
    nth_error (particles (fold_left step (List.map Draw fs) s)) 0 = Some p' /\
    isSettled p' = true.
Proof.
  intros s fs p.
  assert (H1 : stableM s = stableN s) by reflexivity.
  assert (H2 : patternShouldForm s = true) by reflexivity.
  assert (H3 : Forall (fun f => ~ millis f 0 < lastScatterTime s + SCATTER_DURATION) fs).
  { change (lastScatterTime s) with 0. unfold SCATTER_DURATION.
    repeat (apply Forall_cons; [simpl; lra|]). apply Forall_nil. }
  assert (H4 : nth_error (particles s) 0 = Some p).
  { apply (setup_nth (fun _ => 0) 0 zero_lt_NUM_PARTICLES). }
  split; [auto|].
  destruct (equal_modes_settle (fun _ => 0) [] fs 0 p H1 H2 H3 H4)
    as (p' & E1 & _ & _ & E4).
  exists p'. split; [exact E1 | exact E4].
Defined.

(** ** Event handlers *)

Lemma ensureAudioStarted_flag (s : Sketch) :
  audioContextStarted (ensureAudioStarted s) = true.
Proof.
  unfold ensureAudioStarted. destruct (audioContextStarted s) eqn:E; simpl; auto.
Qed.

Lemma draw_audio (f : Frame) (s : Sketch) :
  audioContextStarted (fst (draw f s)) = audioContextStarted s.
Proof.
  unfold draw. destruct (drawParticles s f 0 (particles s) 0 0) as [ps' [a b]].
  reflexivity.
Qed.

Lemma step_audio (s : Sketch) (e : Event) :
  audioContextStarted (step s e) = (audioContextStarted s || startsAudio e)%bool.
Proof.
  destruct e as [f | v | v | key now |]; cbn [step startsAudio].
  - rewrite draw_audio. now rewrite orb_false_r.
  - unfold sliderMInput. cbn [audioContextStarted].
    rewrite ensureAudioStarted_flag. now rewrite orb_true_r.
  - unfold sliderNInput. cbn [audioContextStarted].
    rewrite ensureAudioStarted_flag. now rewrite orb_true_r.
  - unfold keyPressed.
    destruct (String.eqb key "S" || String.eqb key "s")%bool.
    + rewrite ensureAudioStarted_flag. now rewrite orb_true_r.
    + now rewrite orb_false_r.
  - unfold mousePressed. rewrite ensureAudioStarted_flag. now rewrite orb_true_r.
Qed.

Lemma steps_audio (evs : list Event) :
  forall s, audioContextStarted (fold_left step evs s) =
            (audioContextStarted s || existsb startsAudio evs)%bool.
Proof.
  induction evs as [|e evs IH]; intros s; simpl.
  - now rewrite orb_false_r.
  - rewrite IH, step_audio. now rewrite orb_assoc.
Qed.

(** X8: the audio context has been started exactly when some event so far
    was a mouse press, a slider input or a press of the key S (either
    case); frames and other keys never start it, and once started it stays
    started. *)
Theorem audio_started_by_gesture (rnd : nat -> R) (evs more : list Event) :
  audioContextStarted (run rnd evs) = existsb startsAudio evs /\
  audioContextStarted (run rnd (evs ++ more)) =
    (audioContextStarted (run rnd evs) || existsb startsAudio more)%bool.
Proof.
  split.
  - unfold run. rewrite steps_audio. reflexivity.
  - rewrite run_app. apply steps_audio.
Qed.

(** X9: a key other than S and s changes nothing. *)
Theorem keyPressed_other_key (key : string) (now : R) (s : Sketch) :
  key <> "S"%string ->
  key <> "s"%string ->
  keyPressed key now s = s.
Proof.
  intros H1 H2. unfold keyPressed.
  apply String.eqb_neq in H1. apply String.eqb_neq in H2.
  now rewrite H1, H2.
Qed.

Lemma keyPressed_other_key_witness :
  ("r"%string <> "S"%string /\ "r"%string <> "s"%string) /\
  keyPressed "r" 1000 (setup (fun _ => 0)) = setup (fun _ => 0).
Proof.
  assert (H1 : "r"%string <> "S"%string) by discriminate.
  assert (H2 : "r"%string <> "s"%string) by discriminate.
  split; [split; assumption|].
  exact (keyPressed_other_key "r" 1000 (setup (fun _ => 0)) H1 H2).
Defined.

Lemma keyPressed_scatter_eq (key : string) (t : R) (s : Sketch) :
  key = "s"%string \/ key = "S"%string ->
  keyPressed key t s = mkSketch 1 1 (particles s) false t true.
Proof.
  intros Hk. unfold keyPressed.
  assert (E : (String.eqb key "S" || String.eqb key "s")%bool = true).
  { destruct Hk as [-> | ->]; reflexivity. }
  rewrite E. unfold ensureAudioStarted. cbn [audioContextStarted].
  destruct (audioContextStarted s); reflexivity.
Qed.

(** X10: a press of S overrides an earlier one: the scatter window then
    starts at the time of the later press, and the sketch is the one the
    later press alone would have given. *)
Theorem scatter_retrigger (k0 k1 : string) (t0 t1 : R) (s : Sketch) :
  k0 = "s"%string \/ k0 = "S"%string ->
  k1 = "s"%string \/ k1 = "S"%string ->
  keyPressed k1 t1 (keyPressed k0 t0 s) = keyPressed k1 t1 s /\
  lastScatterTime (keyPressed k1 t1 (keyPressed k0 t0 s)) = t1.
Proof.
  intros H0 H1.
  rewrite (keyPressed_scatter_eq k0 t0 s H0).
  rewrite !(keyPressed_scatter_eq k1 t1 _ H1).
  split; reflexivity.
Qed.

Lemma scatter_retrigger_witness :
  let s := setup (fun _ => 0) in
  (("s"%string = "s"%string \/ "s"%string = "S"%string) /\
   ("S"%string = "s"%string \/ "S"%string = "S"%string)) /\
  lastScatterTime (keyPressed "S" 1300 (keyPressed "s" 1000 s)) = 1300.
Proof.
  intros s.
  assert (H0 : "s"%string = "s"%string \/ "s"%string = "S"%string) by (left; reflexivity).
  assert (H1 : "S"%string = "s"%string \/ "S"%string = "S"%string) by (right; reflexivity).
  split; [split; assumption|].
  exact (proj2 (scatter_retrigger "s" "S" 1000 1300 s H0 H1)).
Defined.

(** X11: what each handler leaves alone: a frame changes neither the modes
    nor the forming flag, the scatter time, the audio flag or the number of
    particles; every other event leaves the particle list as it is. *)
Theorem handler_frames (s : Sketch) (e : Event) :
  match e with
  | Draw f =>
      stableM (step s e) = stableM s /\
      stableN (step s e) = stableN s /\
      patternShouldForm (step s e) = patternShouldForm s /\
      lastScatterTime (step s e) = lastScatterTime s /\
      audioContextStarted (step s e) = audioContextStarted s /\
      List.length (particles (step s e)) = List.length (particles s)
  | _ => particles (step s e) = particles s
  end.
Proof.
  destruct e as [f | v | v | key now |];
    try (apply step_particles; reflexivity).
  cbn [step]. destruct (draw_globals s f) as (DM & DN & DF & DL).
  repeat split; try assumption.
  - apply draw_audio.
  - rewrite draw_particles. apply drawParticles_length.
Qed.

(** ** Modes and base frequency *)

Lemma steps_modes_in_range (evs : list Event) :
  forall s,
    Forall sliderInRange evs ->
    (exists a b : Z, (1 <= a <= 15)%Z /\ (1 <= b <= 15)%Z /\
                     stableM s = IZR a /\ stableN s = IZR b) ->
    exists a b : Z, (1 <= a <= 15)%Z /\ (1 <= b <= 15)%Z /\
                    stableM (fold_left step evs s) = IZR a /\
                    stableN (fold_left step evs s) = IZR b.
Proof.
  induction evs as [|e evs IH]; intros s Hall Hs; [exact Hs|].
  inversion Hall as [|? ? He Hrest]; subst. cbn [fold_left].
  apply IH; [exact Hrest|].
  destruct Hs as (a & b & Ha & Hb & EM & EN).
  destruct e as [f | v | v | key now |]; cbn [step sliderInRange] in *.
  - destruct (draw_globals s f) as (DM & DN & _).
    exists a, b. rewrite DM, DN. auto.
  - destruct (sliderMInput_globals v s) as (GM & GN & _).
    exists v, b. rewrite GM, GN. auto.
  - destruct (sliderNInput_globals v s) as (GM & GN & _).
    exists a, v. rewrite GM, GN. auto.
  - unfold keyPressed.
    destruct (String.eqb key "S" || String.eqb key "s")%bool.
    + destruct (ensureAudioStarted_globals
                  (mkSketch 1 1 (particles s) false now (audioContextStarted s)))
        as (GM & GN & _).
      exists 1%Z, 1%Z. rewrite GM, GN. simpl. repeat split; lia.
    + exists a, b. auto.
  - destruct (ensureAudioStarted_globals s) as (GM & GN & _).
    exists a, b. unfold mousePressed. rewrite GM, GN. auto.
Qed.

Lemma calculateFrequencyFromMN_linear (m n : R) :
  calculateFrequencyFromMN m n = 50 + (1.2 * (m + n) - 2) * 550 / 38.
Proof. unfold calculateFrequencyFromMN, P5.map. field. Qed.

(** X12: as long as the slider inputs carry values from 1 to 15, the modes
    of a running sketch are integers from 1 to 15, and the base frequency
    computed from them lies between 1060/19 and 10300/19, inside the
    range from 50 Hz to 600 Hz. *)
Theorem base_frequency_in_range (rnd : nat -> R) (evs : list Event) :
  Forall sliderInRange evs ->
  let s := run rnd evs in
  (exists a b : Z, (1 <= a <= 15)%Z /\ (1 <= b <= 15)%Z /\
                   stableM s = IZR a /\ stableN s = IZR b) /\
  1060 / 19 <= calculateFrequencyFromMN (stableM s) (stableN s) <= 10300 / 19 /\
  50 < calculateFrequencyFromMN (stableM s) (stableN s) < 600.
Proof.
  intros Hall s.
  assert (H : exists a b : Z, (1 <= a <= 15)%Z /\ (1 <= b <= 15)%Z /\
                              stableM s = IZR a /\ stableN s = IZR b).
  { apply steps_modes_in_range; [exact Hall|].
    exists 1%Z, 1%Z. simpl. repeat split; lia. }
  split; [exact H|].
  destruct H as (a & b & [Ha1 Ha2] & [Hb1 Hb2] & -> & ->).
  apply IZR_le in Ha1, Ha2, Hb1, Hb2.
  rewrite calculateFrequencyFromMN_linear. split; [split|split]; lra.
Qed.

Lemma base_frequency_in_range_witness :
  let evs := [SliderM 15; SliderN 15; MousePressed] in
  Forall sliderInRange evs /\
  50 < calculateFrequencyFromMN (stableM (run (fun _ => 0) evs))
                                (stableN (run (fun _ => 0) evs)) < 600.
Proof.
  intros evs.
  assert (H : Forall sliderInRange evs).
  { repeat (apply Forall_cons; [simpl; try lia; exact I|]). apply Forall_nil. }
  split; [exact H|].
  exact (proj2 (proj2 (base_frequency_in_range (fun _ => 0) evs H))).
Defined.

(** X13: the base frequency depends on the two modes only through their
    sum, so it is symmetric in them, and it grows with each of them: by
    330/19 Hz for every unit step of a mode. *)
Theorem base_frequency_monotone (m n m' n' : R) :
  m <= m' ->
  n <= n' ->
  calculateFrequencyFromMN m n <= calculateFrequencyFromMN m' n' /\
  calculateFrequencyFromMN m n = calculateFrequencyFromMN n m /\
  calculateFrequencyFromMN (m + 1) n = calculateFrequencyFromMN m n + 330 / 19 /\
  calculateFrequencyFromMN m' n' - calculateFrequencyFromMN m n =
    330 / 19 * ((m' + n') - (m + n)).
Proof.
  intros Hm Hn. rewrite !calculateFrequencyFromMN_linear.
  repeat split; lra.
Qed.

Lemma base_frequency_monotone_witness :
  (1 <= 2 /\ 3 <= 3) /\
  calculateFrequencyFromMN 1 3 <= calculateFrequencyFromMN 2 3.
Proof.
  assert (H1 : 1 <= 2) by lra. assert (H2 : 3 <= 3) by lra.
  split; [split; assumption|].
  exact (proj1 (base_frequency_monotone 1 3 2 3 H1 H2)).
Defined.

(** ** Sound *)

Lemma soundGeneration_amps (ns nm : nat) (m n : R) (fc : nat) :
  (ns <= NUM_PARTICLES)%nat ->
  let o := INR ns / 9000 * 0.4 in
  List.map oscAmp (oscillators (soundGeneration ns nm m n fc)) =
  [o; o / 1.5; o / 1.5; o / 1.5].
Proof.
  intros Hle o.
  assert (Hb : 0 <= INR ns <= 9000).
  { split; [apply pos_INR|]. rewrite <- INR_NUM_PARTICLES. now apply le_INR. }
  change (List.map oscAmp (oscillators (soundGeneration ns nm m n fc))) with
    (let a := P5.map (INR ns) 0 (INR NUM_PARTICLES) 0 0.4 in
     [P5.constrain (a / 1) 0 0.4; P5.constrain (a / 1.5) 0 0.4;
      P5.constrain (a / 1.5) 0 0.4; P5.constrain (a / 1.5) 0 0.4]).
  cbv zeta. rewrite INR_NUM_PARTICLES.
  replace (P5.map (INR ns) 0 9000 0 0.4) with o by (unfold o, P5.map; lra).
  assert (Ho : 0 <= o <= 0.4) by (unfold o; lra).
  rewrite !constrain_inside by lra.
  f_equal. lra.
Qed.

Lemma soundGeneration_noise (ns nm : nat) (m n : R) (fc : nat) :
  movementAmp (soundGeneration ns nm m n fc) = INR nm / 9000 * 0.05 /\
  movementFilterFreq (soundGeneration ns nm m n fc) = 100 + INR nm / 9000 * 700.
Proof.
  unfold soundGeneration. cbn [movementAmp movementFilterFreq].
  rewrite INR_NUM_PARTICLES. unfold P5.map. split; lra.
Qed.

Lemma run_tallies (rnd : nat -> R) (evs : list Event) (f : Frame) :
  (fst (tallies f (run rnd evs)) + snd (tallies f (run rnd evs)) = NUM_PARTICLES)%nat.
Proof.
  rewrite tallies_sum. apply (inv_count _ (run_invariant rnd evs)).
Qed.

(** X14: in every frame of a running sketch the noise and the tone trade
    off: the noise amplitude as a fraction of 0.05 and the amplitude of the
    first voice as a fraction of 0.4 add up to 1; the filter cutoff is
    100 + 14000 times the noise amplitude, between 100 and 800, and the
    noise amplitude lies between 0 and 0.05. *)
Theorem noise_tone_tradeoff (rnd : nat -> R) (evs : list Event) (f : Frame) :
  let sound := snd (draw f (run rnd evs)) in
  movementAmp sound / 0.05 +
    nth 0 (List.map oscAmp (oscillators sound)) 0 / 0.4 = 1 /\
  movementFilterFreq sound = 100 + 14000 * movementAmp sound /\
  0 <= movementAmp sound <= 0.05 /\
  100 <= movementFilterFreq sound <= 800.
Proof.
  intros sound. unfold sound. rewrite draw_sound.
  pose proof (run_tallies rnd evs f) as Hsum.
  set (ns := fst (tallies f (run rnd evs))) in *.
  set (nm := snd (tallies f (run rnd evs))) in *.
  assert (Hle : (ns <= NUM_PARTICLES)%nat) by lia.
  rewrite (soundGeneration_amps ns nm _ _ _ Hle).
  destruct (soundGeneration_noise ns nm (stableM (run rnd evs))
              (stableN (run rnd evs)) (frameCount f)) as [-> ->].
  cbn [nth].
  assert (HR : INR ns + INR nm = 9000).
  { rewrite <- plus_INR, Hsum. apply INR_NUM_PARTICLES. }
  pose proof (pos_INR ns). pose proof (pos_INR nm).
  repeat split; lra.
Qed.

(** X15: [draw] always sends four voices; the first is tuned to the base
    frequency exactly, the others to 1.5, 2 and 2.5 times the base
    frequency, each detuned by at most 1.5 Hz. *)
Theorem voice_frequencies (ns nm : nat) (m n : R) (fc : nat) :
  let base := calculateFrequencyFromMN m n in
  let freqs := List.map oscFreq (oscillators (soundGeneration ns nm m n fc)) in
  List.length freqs = 4%nat /\
  nth 0 freqs 0 = base /\
  Rabs (nth 1 freqs 0 - base * 1.5) <= 1.5 /\
  Rabs (nth 2 freqs 0 - base * 2) <= 1.5 /\
  Rabs (nth 3 freqs 0 - base * 2.5) <= 1.5.
Proof.
  intros base freqs.
  assert (Hd : forall a t, Rabs (a + sin t * 1.5 - a) <= 1.5).
  { intros a t. pose proof (SIN_bound t) as [H1 H2]. apply Rabs_le. lra. }
  split; [reflexivity|]. split; [unfold freqs; simpl; fold base; lra|].
  unfold freqs. cbn [soundGeneration oscillators List.map seq NUM_SETTLE_OSCILLATORS
                     settleVoice oscFreq nth].
  fold base. repeat split; apply Hd.
Qed.

Lemma filter_all_false {A : Type} (g : A -> bool) (l : list A) :
  Forall (fun a => g a = false) l -> filter g l = [].
Proof.
  induction 1 as [|a l Ha _ IH]; [reflexivity|]. simpl. now rewrite Ha.
Qed.

Lemma filter_all_true {A : Type} (g : A -> bool) (l : list A) :
  Forall (fun a => g a = true) l -> filter g l = l.
Proof.
  induction 1 as [|a l Ha _ IH]; [reflexivity|]. simpl. now rewrite Ha, IH.
Qed.

Lemma tallies_all_unsettled (f : Frame) (s : Sketch) :
  Forall (fun q => isSettled q = false) (particles (fst (draw f s))) ->
  tallies f s = (0%nat, List.length (particles s)).
Proof.
  intros H. rewrite draw_particles in H.
  destruct (drawParticles_tally s f (particles s) 0 0 0) as [Ha Hb].
  rewrite (filter_all_false _ _ H) in Ha.
  rewrite filter_all_true in Hb
    by (eapply Forall_impl; [|exact H]; intros q Hq; simpl; now rewrite Hq).
  rewrite drawParticles_length in Hb.
  unfold tallies. destruct (snd (drawParticles s f 0 (particles s) 0 0)) as [a b].
  simpl in *. now subst.
Qed.

Lemma tallies_all_settled (f : Frame) (s : Sketch) :
  Forall (fun q => isSettled q = true) (particles (fst (draw f s))) ->
  tallies f s = (List.length (particles s), 0%nat).
Proof.
  intros H. rewrite draw_particles in H.
  destruct (drawParticles_tally s f (particles s) 0 0 0) as [Ha Hb].
  rewrite (filter_all_true _ _ H) in Ha.
  rewrite filter_all_false in Hb
    by (eapply Forall_impl; [|exact H]; intros q Hq; simpl; now rewrite Hq).
  rewrite drawParticles_length in Ha.
  unfold tallies. destruct (snd (drawParticles s f 0 (particles s) 0 0)) as [a b].
  simpl in *. now subst.
Qed.

(** X16: in a frame of a running sketch whose clock readings all fall
    inside the scatter window, no particle is counted as settled: the noise
    runs at its full amplitude 0.05 with the cutoff at 800 Hz, and all four
    voices are silent. *)
Theorem scatter_frame_sound (rnd : nat -> R) (evs : list Event) (f : Frame) :
  let s := run rnd evs in
  (forall j, millis f j < lastScatterTime s + SCATTER_DURATION) ->
  tallies f s = (0%nat, NUM_PARTICLES) /\
  movementAmp (snd (draw f s)) = 0.05 /\
  movementFilterFreq (snd (draw f s)) = 800 /\
  List.map oscAmp (oscillators (snd (draw f s))) = [0; 0; 0; 0].
Proof.
  intros s Hall.
  assert (Ht : tallies f s = (0%nat, NUM_PARTICLES)).
  { rewrite <- (inv_count _ (run_invariant rnd evs)). fold s.
    apply tallies_all_unsettled. rewrite draw_particles.
    apply drawParticles_Forall. intros j q. unfold behaveAt.
    rewrite behave_scatter by apply Hall. reflexivity. }
  split; [exact Ht|]. rewrite draw_sound, Ht. cbn [fst snd].
  destruct (soundGeneration_noise 0 NUM_PARTICLES (stableM s) (stableN s)
              (frameCount f)) as [-> ->].
  rewrite soundGeneration_amps by apply Nat.le_0_l.
  rewrite INR_NUM_PARTICLES. change (INR 0) with 0.
  split; [lra|]. split; [lra|]. repeat (f_equal; try lra).
Qed.

Lemma scatter_frame_sound_witness :
  let f := mkFrame (fun _ => 100) (fun _ => 0) 1 in
  (forall j : nat,
      millis f j < lastScatterTime (run (fun _ => 0) []) + SCATTER_DURATION) /\
  movementAmp (snd (draw f (run (fun _ => 0) []))) = 0.05.
Proof.
  intros f.
  assert (H : forall j : nat,
             millis f j < lastScatterTime (run (fun _ => 0) []) + SCATTER_DURATION).
  { intros j. change (lastScatterTime (run (fun _ => 0) [])) with 0.
    unfold SCATTER_DURATION. simpl. lra. }
  split; [exact H|].
  destruct (scatter_frame_sound (fun _ => 0) [] f H) as (_ & E & _).
  exact E.
Defined.

(** X17: in a frame of a running sketch outside the scatter window, with
    the forming flag set and equal modes (as right after [setup]), every
    particle is counted as settled: the noise is silent with the cutoff at
    100 Hz, the first voice plays at 0.4 and the others at 0.4 / 1.5. *)
Theorem equal_modes_sound (rnd : nat -> R) (evs : list Event) (f : Frame) :
  let s := run rnd evs in
  stableM s = stableN s ->
  patternShouldForm s = true ->
  (forall j, ~ millis f j < lastScatterTime s + SCATTER_DURATION) ->
  tallies f s = (NUM_PARTICLES, 0%nat) /\
  movementAmp (snd (draw f s)) = 0 /\
  movementFilterFreq (snd (draw f s)) = 100 /\
  List.map oscAmp (oscillators (snd (draw f s))) =
    [0.4; 0.4 / 1.5; 0.4 / 1.5; 0.4 / 1.5].
Proof.
  intros s Hm Hf Hall.
  assert (Ht : tallies f s = (NUM_PARTICLES, 0%nat)).
  { rewrite <- (inv_count _ (run_invariant rnd evs)). fold s.
    apply tallies_all_settled. rewrite draw_particles.
    apply drawParticles_Forall. intros j q. unfold behaveAt.
    rewrite Hf, Hm. rewrite behave_settle; [reflexivity | apply Hall |].
    rewrite getChladniValue_equal_modes. unfold tolerance. lra. }
  split; [exact Ht|]. rewrite draw_sound, Ht. cbn [fst snd].
  destruct (soundGeneration_noise NUM_PARTICLES 0 (stableM s) (stableN s)
              (frameCount f)) as [-> ->].
  rewrite soundGeneration_amps by apply Nat.le_refl.
  rewrite INR_NUM_PARTICLES. change (INR 0) with 0.
  split; [lra|]. split; [lra|]. repeat (f_equal; try lra).
Qed.

Lemma equal_modes_sound_witness :
  let f := mkFrame (fun _ => 600) (fun _ => 0) 1 in
  let s := run (fun _ => 0) [] in
  (stableM s = stableN s /\ patternShouldForm s = true /\
   (forall j : nat, ~ millis f j < lastScatterTime s + SCATTER_DURATION)) /\
  tallies f s = (NUM_PARTICLES, 0%nat).
Proof.
  intros f s.
  assert (H1 : stableM s = stableN s) by reflexivity.
  assert (H2 : patternShouldForm s = true) by reflexivity.
  assert (H3 : forall j : nat, ~ millis f j < lastScatterTime s + SCATTER_DURATION).
  { intros j. change (lastScatterTime s) with 0. unfold SCATTER_DURATION. simpl. lra. }
  split; [auto|].
  exact (proj1 (equal_modes_sound (fun _ => 0) [] f H1 H2 H3)).
Defined.

(** ** The settled tally *)

Lemma behave_forming_onNode (m n last now rand : R) (p : Particle) :
  ~ now < last + SCATTER_DURATION ->
  isSettled (behave m n last now rand true p) = onNode m n p.
Proof.
  intros Hw. unfold onNode.
  destruct (Rlt_dec _ tolerance) as [Hc | Hc].
  - now apply behave_forming_settled.
  - destruct (isSettled (behave m n last now rand true p)) eqn:E; [|reflexivity].
    apply behave_forming_settled in E; [contradiction | exact Hw].
Qed.

Lemma drawParticles_onNode (s : Sketch) (f : Frame) (ps : list Particle) :
  patternShouldForm s = true ->
  (forall j, ~ millis f j < lastScatterTime s + SCATTER_DURATION) ->
  forall i a b,
    fst (snd (drawParticles s f i ps a b)) =
      (a + List.length (filter (onNode (stableM s) (stableN s)) ps))%nat /\
    snd (snd (drawParticles s f i ps a b)) =
      (b + List.length (filter (fun p => negb (onNode (stableM s) (stableN s) p)) ps))%nat.
Proof.
  intros Hf Hall. induction ps as [|p rest IH]; intros i a b.
  - simpl. lia.
  - cbn [drawParticles filter]. rewrite Hf.
    rewrite (behave_forming_onNode _ _ _ _ _ p (Hall i)).
    destruct (onNode (stableM s) (stableN s) p); cbn [negb].
    + specialize (IH (S i) (S a) b).
      destruct (drawParticles s f (S i) rest (S a) b) as [rest' c].
      simpl in *. lia.
    + specialize (IH (S i) a (S b)).
      destruct (drawParticles s f (S i) rest a (S b)) as [rest' c].
      simpl in *. lia.
Qed.

(** X18: in a frame outside the scatter window with the forming flag set,
    the settled counter is the number of particles that entered the frame
    at a position where the field magnitude is below the tolerance, and the
    moving counter is the number of the others: the counters describe the
    positions before the frame's integration step. *)
Theorem tallies_count_nodes (f : Frame) (s : Sketch) :
  patternShouldForm s = true ->
  (forall j, ~ millis f j < lastScatterTime s + SCATTER_DURATION) ->
  tallies f s =
  (List.length (filter (onNode (stableM s) (stableN s)) (particles s)),
   List.length (filter (fun p => negb (onNode (stableM s) (stableN s) p))
                       (particles s))).
Proof.
  intros Hf Hall. unfold tallies.
  destruct (drawParticles_onNode s f (particles s) Hf Hall 0 0 0) as [Ha Hb].
  destruct (snd (drawParticles s f 0 (particles s) 0 0)) as [a b].
  simpl in *. now subst.
Qed.

Lemma tallies_count_nodes_witness :
  let f := mkFrame (fun _ => 600) (fun _ => 0) 1 in
  let p := mkParticle (Vector.mk 0 675) (Vector.mk 0 0) (Vector.mk 0 0) false in
  let q := mkParticle (Vector.mk 540 675) (Vector.mk 0 0) (Vector.mk 0 0) false in
  let s := mkSketch 1 2 [p; q] true 0 false in
  (patternShouldForm s = true /\
   (forall j : nat, ~ millis f j < lastScatterTime s + SCATTER_DURATION)) /\
  tallies f s = (1%nat, 1%nat).
Proof.
  intros f p q s.
  assert (H1 : patternShouldForm s = true) by reflexivity.
  assert (H2 : forall j : nat, ~ millis f j < lastScatterTime s + SCATTER_DURATION).
  { intros j. unfold SCATTER_DURATION. simpl. lra. }
  split; [split; assumption|].
  rewrite (tallies_count_nodes f s H1 H2).
  assert (Hp : onNode 1 2 p = false).
  { unfold onNode. cbn [pos p Vector.x Vector.y].
    rewrite getChladniValue_left_edge.
    destruct (Rlt_dec 2 tolerance) as [H | H]; [|reflexivity].
    unfold tolerance in H. lra. }
  assert (Hq : onNode 1 2 q = true).
  { unfold onNode. cbn [pos q Vector.x Vector.y].
    replace 540 with (0.5 * CANVAS_WIDTH) by (unfold CANVAS_WIDTH; lra).
    replace 675 with (0.5 * CANVAS_HEIGHT) by (unfold CANVAS_HEIGHT; lra).
    rewrite getChladniValue_diagonal.
    destruct (Rlt_dec 0 tolerance) as [H | H]; [reflexivity|].
    unfold tolerance in H. lra. }
  cbn [particles stableM stableN s filter]. rewrite Hp, Hq. reflexivity.
Defined.

(** ** Forces *)

(** X19: forces accumulate in the acceleration and their order does not
    matter; the next [update] adds their sum to the velocity before
    limiting it, and leaves nothing of them behind. *)
Theorem applyForce_accumulates (f g : Vector.t) (p : Particle) :
  applyForce g (applyForce f p) = applyForce f (applyForce g p) /\
  applyForce g (applyForce f p) = applyForce (Vector.add f g) p /\
  vel (update (applyForce g (applyForce f p))) =
    Vector.limit (Vector.add (vel p) (Vector.add (acc p) (Vector.add f g))) maxSpeed /\
  acc (update (applyForce g (applyForce f p))) = Vector.mk 0 0 /\
  pos (applyForce f p) = pos p /\
  vel (applyForce f p) = vel p /\
  isSettled (applyForce f p) = isSettled p.
Proof.
  assert (E : applyForce g (applyForce f p) = applyForce (Vector.add f g) p).
  { unfold applyForce, set_acc, Vector.add. simpl. f_equal. f_equal; ring. }
  split.
  { unfold applyForce, set_acc, Vector.add. simpl. f_equal. f_equal; ring. }
  split; [exact E|]. split.
  { rewrite E, update_vel. reflexivity. }
  split; [apply update_acc|]. repeat split.
Qed.

(** ** Cancelling votes *)

(** X20: in the descending branch, when on each axis the two neighbours
    compare the same way with the current magnitude (both lower, both
    higher or both equal), the votes cancel and the particle gets no
    steering at all, only the random impulse of magnitude 0.01, even at a
    maximum of the field. *)
Theorem cancelling_votes (m n last now rand : R) (p : Particle) :
  let px := Vector.x (pos p) in
  let py := Vector.y (pos p) in
  let here := getChladniValue m n px py in
  ~ now < last + SCATTER_DURATION ->
  ~ here < tolerance ->
  toward (getChladniValue m n (px + 2) py) here =
    toward (getChladniValue m n (px - 2) py) here ->
  toward (getChladniValue m n px (py + 2)) here =
    toward (getChladniValue m n px (py - 2)) here ->
  steerForce m n here p = Vector.mk 0 0 /\
  behave m n last now rand true p =
    update (mkParticle (pos p) (Vector.mult (vel p) 0.98)
                       (Vector.add (acc p) (Vector.mult (Vector.random2D rand) 0.01))
                       false).
Proof.
  intros px py here Hw Hc Hx Hy.
  pose proof (steerForce_votes m n p) as Hs. cbv zeta in Hs.
  fold px py here in Hs. rewrite Hx, Hy in Hs.
  assert (Hz : steerForce m n here p = Vector.mk 0 0).
  { rewrite Hs. f_equal; ring. }
  split; [exact Hz|].
  pose proof (behave_descend m n last now rand p Hw Hc) as Hb.
  cbv zeta in Hb. fold px py here in Hb. rewrite Hz in Hb.
  assert (Hm : Vector.mag (Vector.mk 0 0) = 0) by (now apply VectorFacts.mag_zero_iff).
  rewrite Hm in Hb.
  destruct (Rgt_dec 0 0) as [H | _]; [lra|]. exact Hb.
Qed.

Lemma cos_about_2PI (a : R) : cos (- (2 * PI) + a) = cos (- (2 * PI) - a).
Proof.
  rewrite cos_plus, cos_minus, cos_neg, sin_neg, cos_2PI, sin_2PI. ring.
Qed.

Lemma cos_about_PI (a : R) : cos (- PI + a) = cos (- PI - a).
Proof.
  rewrite cos_plus, cos_minus, cos_neg, sin_neg, cos_PI, sin_PI. ring.
Qed.

(** At the middle of the left edge the field of the modes (1, 2) is the
    same two units to the right and two units to the left. *)
Lemma left_edge_neighbours_x :
  getChladniValue 1 2 (0 + 2) 675 = getChladniValue 1 2 (0 - 2) 675.
Proof.
  unfold getChladniValue, P5.abs, P5.map, chladni, L_CHLADNI_SCALE,
         CANVAS_WIDTH, CANVAS_HEIGHT. cbv zeta.
  replace (2 * PI * ((0 + 2 - 0) / (1080 - 0) * (1080 / 3 - - (1080 / 3)) + - (1080 / 3))
           / (1080 / 3)) with (- (2 * PI) + PI / 135) by field.
  replace (2 * PI * ((0 - 2 - 0) / (1080 - 0) * (1080 / 3 - - (1080 / 3)) + - (1080 / 3))
           / (1080 / 3)) with (- (2 * PI) - PI / 135) by field.
  replace (1 * PI * ((0 + 2 - 0) / (1080 - 0) * (1080 / 3 - - (1080 / 3)) + - (1080 / 3))
           / (1080 / 3)) with (- PI + PI / 270) by field.
  replace (1 * PI * ((0 - 2 - 0) / (1080 - 0) * (1080 / 3 - - (1080 / 3)) + - (1080 / 3))
           / (1080 / 3)) with (- PI - PI / 270) by field.
  now rewrite cos_about_2PI, cos_about_PI.
Qed.

Lemma getChladniValue_mirror_y (m n x y : R) :
  getChladniValue m n x (CANVAS_HEIGHT - y) = getChladniValue m n x y.
Proof.
  unfold getChladniValue, P5.abs. cbv zeta.
  rewrite map_mirror by (unfold CANVAS_HEIGHT; lra).
  now rewrite chladni_even_y.
Qed.

Lemma cancelling_votes_witness :
  let p := mkParticle (Vector.mk 0 675) (Vector.mk 0 0) (Vector.mk 0 0) false in
  let here := getChladniValue 1 2 0 675 in
  (~ 600 < 0 + SCATTER_DURATION /\
   ~ here < tolerance /\
   toward (getChladniValue 1 2 (0 + 2) 675) here =
     toward (getChladniValue 1 2 (0 - 2) 675) here /\
   toward (getChladniValue 1 2 0 (675 + 2)) here =
     toward (getChladniValue 1 2 0 (675 - 2)) here) /\
  steerForce 1 2 here p = Vector.mk 0 0.
Proof.
  intros p here.
  assert (H1 : ~ 600 < 0 + SCATTER_DURATION) by (unfold SCATTER_DURATION; lra).
  assert (H2 : ~ here < tolerance).
  { unfold here. rewrite getChladniValue_left_edge. unfold tolerance. lra. }
  assert (H3 : toward (getChladniValue 1 2 (0 + 2) 675) here =
               toward (getChladniValue 1 2 (0 - 2) 675) here).
  { now rewrite left_edge_neighbours_x. }
  assert (H4 : toward (getChladniValue 1 2 0 (675 + 2)) here =
               toward (getChladniValue 1 2 0 (675 - 2)) here).
  { replace (675 - 2) with (CANVAS_HEIGHT - (675 + 2)) by (unfold CANVAS_HEIGHT; lra).
    now rewrite getChladniValue_mirror_y. }
  split; [auto|].
  exact (proj1 (cancelling_votes 1 2 0 600 0 p H1 H2 H3 H4)).
Defined.

(** ** Recording *)

Module RecordingFacts.

Section Chunks.

Variable Chunk : Type.

Lemma steps_spec (evs : list (Recording.Event Chunk)) :
  forall (st : Recording.State Chunk) (files : list (list Chunk)),
    let c := fold_left (Recording.step Chunk) evs (st, files) in
    Recording.isRecording Chunk (fst c) =
      xorb (Recording.isRecording Chunk st) (Nat.odd (Recording.presses Chunk evs)) /\
    List.concat (snd c) ++ Recording.recordedChunks Chunk (fst c) =
      List.concat files ++ Recording.recordedChunks Chunk st ++ Recording.delivered Chunk evs.
Proof.
  induction evs as [|e evs IH]; intros st files.
  - simpl. rewrite xorb_false_r, app_nil_r. auto.
  - cbn [fold_left]. destruct e as [| data |].
    + cbn [Recording.step Recording.presses Recording.delivered].
      destruct (IH (Recording.toggleRecording Chunk st) files) as [E1 E2].
      split.
      * rewrite E1, Nat.odd_succ, <- Nat.negb_odd.
        unfold Recording.toggleRecording.
        destruct (Recording.isRecording Chunk st); simpl;
          destruct (Nat.odd (Recording.presses Chunk evs)); reflexivity.
      * rewrite E2. unfold Recording.toggleRecording.
        destruct (negb (Recording.isRecording Chunk st)); reflexivity.
    + cbn [Recording.step Recording.presses Recording.delivered].
      destruct (IH (Recording.ondataavailable Chunk data st) files) as [E1 E2].
      split; [exact E1|].
      rewrite E2. cbn [Recording.ondataavailable Recording.recordedChunks].
      now rewrite <- !app_assoc.
    + cbn [Recording.step Recording.saveRecording Recording.presses Recording.delivered].
      destruct (IH (Recording.mkState Chunk (Recording.isRecording Chunk st) [])
                   (files ++ [Recording.recordedChunks Chunk st])) as [E1 E2].
      split; [exact E1|].
      rewrite E2, concat_app. simpl. now rewrite !app_nil_r, <- !app_assoc.
Qed.


(** X22: no chunk is lost or saved twice: the downloaded files, one after
    the other, followed by the chunks still held, are the chunks the
    recorder delivered, in order; a stop event saves exactly the chunks
    held at that moment as one more file and holds none afterwards. *)
Theorem recording_conserves_chunks (evs : list (Recording.Event Chunk)) :
  let c := Recording.run Chunk evs in
  let c' := Recording.run Chunk (evs ++ [Recording.Stopped Chunk]) in
  List.concat (snd c) ++ Recording.recordedChunks Chunk (fst c) =
    Recording.delivered Chunk evs /\
  snd c' = snd c ++ [Recording.recordedChunks Chunk (fst c)] /\
  Recording.recordedChunks Chunk (fst c') = [] /\
  List.concat (snd c') = Recording.delivered Chunk evs.
Proof.
  intros c c'.
  assert (E : List.concat (snd c) ++ Recording.recordedChunks Chunk (fst c) =
              Recording.delivered Chunk evs).
  { unfold c, Recording.run.
    destruct (steps_spec evs (Recording.initial Chunk) []) as [_ E].
    exact E. }
  assert (Ec : c' = (Recording.mkState Chunk (Recording.isRecording Chunk (fst c)) [],
                     snd c ++ [Recording.recordedChunks Chunk (fst c)])).
  { unfold c', Recording.run. rewrite fold_left_app. cbn [fold_left].
    fold (Recording.run Chunk evs). fold c. destruct c as [st files]. reflexivity. }
  split; [exact E|]. rewrite Ec. cbn [fst snd Recording.recordedChunks].
  split; [reflexivity|]. split; [reflexivity|].
  rewrite concat_app. simpl. now rewrite app_nil_r.
Qed.

End Chunks.

End RecordingFacts.
